(** * knownerror: error proxies compatible with errors.Is and errors.As

    A shallow embedding of [proxy.go] together with the parts of the Go
    runtime it delegates to ([errors.New], [errors.Is], [errors.As] and the
    [%s], [%v], [%q] verbs of [fmt]).

    Pointers are addresses into an explicit heap, so that "the same
    reference" and "a new instance" are statements about addresses.  Heap
    objects are never updated: the package only allocates. *)

From Stdlib Require Import ZArith String Ascii Lia.
From stdpp Require Import base tactics option list strings.

(** ** Values *)

Abbreviation addr := nat (only parsing).
Abbreviation rune := Z (only parsing).

(** A value of the interface type [error]. *)
Inductive error : Type :=
| enil                         (* the nil interface value *)
| ref (a : addr)               (* a non-nil pointer; the pointee fixes the dynamic type *)
| multi (msgs : list string)   (* a value of a slice type with an Error method:
                                  its dynamic type is not comparable *)
| nilProxy.                    (* a nil [*Proxy] held in the interface, as in
                                  [var err error = Wrap(nil)]: not [== nil] *)

(** [type Proxy struct { base error; cause error; extends []error }] *)
Record Proxy : Type := mkProxy {
  base : error;
  cause : error;
  extends : list error
}.

(** What a pointer-typed error can point to. *)
Inductive object : Type :=
| errorString (s : string)                  (* errors.New, fmt.Errorf without %w *)
| wrapError (msg : string) (err : error)    (* fmt.Errorf with one %w *)
| wrapErrors (msg : string) (errs : list error) (* fmt.Errorf with several %w *)
| customError (code : Z)                    (* the error type of proxy_test.go *)
| proxy (p : Proxy).

Abbreviation heap := (list object) (only parsing).

(** A [*Proxy]: [None] is the nil pointer. *)
Abbreviation ProxyPtr := (option addr) (only parsing).

(** ** Allocation: a state and error monad over the heap *)

Definition M (A : Type) : Type := heap -> option (A * heap).

#[global] Instance M_ret : MRet M := fun A x h => Some (x, h).
#[global] Instance M_bind : MBind M := fun A B f m h =>
  match m h with
  | Some (x, h') => f x h'
  | None => None
  end.

(** [&T{...}]: the new object gets the first unused address. *)
Definition alloc (o : object) : M addr := fun h => Some (length h, h ++ [o]).

(** [*e] for [e : *Proxy]; a nil pointer faults. *)
Definition deref (h : heap) (e : ProxyPtr) : option Proxy :=
  a ← e;
  o ← h !! a;
  match o with
  | proxy p => Some p
  | _ => None
  end.

Definition load (e : ProxyPtr) : M Proxy := fun h =>
  p ← deref h e; Some (p, h).

(** A method that only reads the heap. *)
Definition read {A : Type} (f : heap -> option A) : M A := fun h =>
  x ← f h; Some (x, h).

(** A [*Proxy] converted to [error]: the interface holds the pointer, also
    when the pointer is nil. *)
Definition iface (e : ProxyPtr) : error := from_option ref nilProxy e.

(** ** The Go runtime *)

Definition is_nil (e : error) : bool :=
  match e with
  | enil => true
  | _ => false
  end.

(** [reflectlite.TypeOf(e).Comparable()] *)
Definition comparable (e : error) : bool :=
  match e with
  | multi _ => false
  | _ => true
  end.

(** [x == y] on interface values, where it does not panic. *)
Definition error_eqb (x y : error) : bool :=
  match x, y with
  | enil, enil => true
  | ref a, ref b => Nat.eqb a b
  | nilProxy, nilProxy => true
  | _, _ => false
  end.

(** [errors.New] *)
Definition errors_New (text : string) : M error :=
  a ← alloc (errorString text); mret (ref a).

(** [for _, x := range l { if f(x) { return true } }; return false] *)
Fixpoint range_any (f : error -> option bool) (l : list error) : option bool :=
  match l with
  | [] => Some false
  | x :: l' =>
      b ← f x;
      if b : bool then Some true else range_any f l'
  end.

(** [errors.Is], over the function [is] that walks the chain. *)
Definition errors_Is_with (walk : error -> error -> bool -> option bool)
    (err target : error) : option bool :=
  if is_nil err || is_nil target then Some (error_eqb err target)
  else walk err target (comparable target).

(** [func (e *Proxy) Is(target error) bool], over the [errors.Is] it calls. *)
Definition Is_with (errors_Is : error -> error -> option bool)
    (h : heap) (e : ProxyPtr) (target : error) : option bool :=
  if is_nil target then Some false
  else
    p ← deref h e;
    range_any (fun ext => errors_Is ext target) (extends p).

(** The loop of [errors.is].  Each iteration and each call spends one unit
    of [n]; [None] is a fault or an exhausted [n]. *)
Fixpoint is_ (n : nat) (h : heap) (err target : error)
    (targetComparable : bool) {struct n} : option bool :=
  match n with
  | O => None
  | S n =>
      if targetComparable && error_eqb err target then Some true
      else
        match err with
        | ref a =>
            o ← h !! a;
            match o with
            | proxy p =>
                (* x.Is(target) *)
                b ← Is_with (errors_Is_with (is_ n h)) h (Some a) target;
                if b : bool then Some true
                else
                  (* err = x.Unwrap() *)
                  let err := base p in
                  if is_nil err then Some false
                  else is_ n h err target targetComparable
            | wrapError _ err =>
                if is_nil err then Some false
                else is_ n h err target targetComparable
            | wrapErrors _ errs =>
                range_any (fun err => is_ n h err target targetComparable) errs
            | errorString _ | customError _ => Some false
            end
        | nilProxy =>
            (* x.Is(target) on the nil receiver; x.Unwrap() dereferences it *)
            b ← Is_with (errors_Is_with (is_ n h)) h None target;
            if b : bool then Some true else None
        | enil | multi _ => Some false
        end
  end.

(** Chains in a heap of [length h] objects are at most that long. *)
Definition fuel (h : heap) : nat := S (length h).

Definition errors_Is (h : heap) (err target : error) : option bool :=
  errors_Is_with (is_ (fuel h) h) err target.

(** *** Dynamic types and [errors.As] *)

(** The dynamic types of non-nil errors. *)
Inductive kind : Type :=
| KerrorString | KwrapError | KwrapErrors | KcustomError | KProxy | Kmulti.

Definition kind_eqb (k1 k2 : kind) : bool :=
  match k1, k2 with
  | KerrorString, KerrorString | KwrapError, KwrapError
  | KwrapErrors, KwrapErrors | KcustomError, KcustomError
  | KProxy, KProxy | Kmulti, Kmulti => true
  | _, _ => false
  end.

Definition kind_of (o : object) : kind :=
  match o with
  | errorString _ => KerrorString
  | wrapError _ _ => KwrapError
  | wrapErrors _ _ => KwrapErrors
  | customError _ => KcustomError
  | proxy _ => KProxy
  end.

(** [reflectlite.TypeOf(err)]; it has no answer for the nil interface. *)
Definition TypeOf (h : heap) (err : error) : option kind :=
  match err with
  | enil => None
  | ref a => o ← h !! a; Some (kind_of o)
  | multi _ => Some Kmulti
  | nilProxy => Some KProxy
  end.

(** The type a target points to: one of the error types, or an interface
    type, given by the dynamic types that implement it. *)
Inductive rtype : Type :=
| Concrete (k : kind)
| Interface (implementedBy : kind -> bool).

Definition AssignableTo (k : kind) (t : rtype) : bool :=
  match t with
  | Concrete k' => kind_eqb k k'
  | Interface implementedBy => implementedBy k
  end.

(** The [target] of [errors.As]: a non-nil pointer to a variable of type
    [elem] that currently holds [contents] ([enil] while it is unset).
    These are the targets [errors.As] accepts; it panics on any other. *)
Record holder : Type := mkHolder {
  elem : rtype;
  contents : error
}.

(** [targetVal.Elem().Set(reflectlite.ValueOf(err))] *)
Definition Set_ (target : holder) (err : error) : holder :=
  {| elem := elem target; contents := err |}.

(** [for _, x := range l { if f(x, target) { return true } }; return false] *)
Fixpoint range_first (f : error -> holder -> option (bool * holder))
    (l : list error) (target : holder) : option (bool * holder) :=
  match l with
  | [] => Some (false, target)
  | x :: l' =>
      '(b, target') ← f x target;
      if b : bool then Some (true, target') else range_first f l' target'
  end.

(** [errors.As], over the function [as] that walks the chain. *)
Definition errors_As_with (walk : error -> holder -> option (bool * holder))
    (err : error) (target : holder) : option (bool * holder) :=
  if is_nil err then Some (false, target)
  else walk err target.

(** [func (e *Proxy) As(target any) bool], over the [errors.As] it calls. *)
Definition As_with (errors_As : error -> holder -> option (bool * holder))
    (h : heap) (e : ProxyPtr) (target : holder) : option (bool * holder) :=
  p ← deref h e;
  range_first errors_As (extends p) target.

(** The loop of [errors.as]. *)
Fixpoint as_ (n : nat) (h : heap) (err : error) (target : holder)
    {struct n} : option (bool * holder) :=
  match n with
  | O => None
  | S n =>
      k ← TypeOf h err;
      if AssignableTo k (elem target) then Some (true, Set_ target err)
      else
        match err with
        | ref a =>
            o ← h !! a;
            match o with
            | proxy p =>
                (* x.As(target) *)
                '(b, target') ← As_with (errors_As_with (as_ n h)) h (Some a) target;
                if b : bool then Some (true, target')
                else
                  (* err = x.Unwrap() *)
                  let err := base p in
                  if is_nil err then Some (false, target')
                  else as_ n h err target'
            | wrapError _ err =>
                if is_nil err then Some (false, target)
                else as_ n h err target
            | wrapErrors _ errs => range_first (as_ n h) errs target
            | errorString _ | customError _ => Some (false, target)
            end
        | nilProxy =>
            (* x.As(target) on the nil receiver *)
            '(b, target') ← As_with (errors_As_with (as_ n h)) h None target;
            if b : bool then Some (true, target') else None
        | enil | multi _ => Some (false, target)
        end
  end.

Definition errors_As (h : heap) (err : error) (target : holder)
    : option (bool * holder) :=
  errors_As_with (as_ (fuel h) h) err target.

(** *** The [Error] method *)

(** [func (e *Proxy) Error() string], over the [Error] of its base. *)
Definition Error_with (Error_of : error -> option string)
    (h : heap) (e : ProxyPtr) : option string :=
  p ← deref h e;
  if negb (is_nil (base p)) then Error_of (base p)
  else Some EmptyString.

(** [err.Error()] by dynamic dispatch; calling it on nil faults. *)
Fixpoint Error_ (n : nat) (h : heap) (err : error) {struct n} : option string :=
  match n with
  | O => None
  | S n =>
      match err with
      | enil => None
      | multi msgs => Some (String.concat "; " msgs)
      | nilProxy => Error_with (Error_ n h) h None
      | ref a =>
          o ← h !! a;
          match o with
          | errorString s => Some s
          | wrapError msg _ => Some msg
          | wrapErrors msg _ => Some msg
          | customError _ => Some "custom error"%string
          | proxy _ => Error_with (Error_ n h) h (Some a)
          end
      end
  end.

Definition Error_of (h : heap) (err : error) : option string :=
  Error_ (fuel h) h err.

(** *** [fmt] *)

(** A [fmt.State]: the bytes written so far and the flags of the verb. *)
Record State : Type := mkState {
  buf : string;
  flagSet : list rune
}.

Definition Flag (s : State) (c : rune) : bool := existsb (Z.eqb c) (flagSet s).

Definition State_Write (s : State) (b : string) : State :=
  {| buf := buf s +:+ b; flagSet := flagSet s |}.

Definition rune_plus : rune := 43.
Definition rune_q : rune := 113.
Definition rune_s : rune := 115.
Definition rune_v : rune := 118.

(** How [fmt] prints an [error] operand under a plain [%s]: through
    [Format] when the operand is a [fmt.Formatter] (a [*Proxy]), through
    [Error] otherwise.  [fmt] recovers the panic of [Format] on a nil
    pointer and prints [<nil>] for it. *)
Definition verb_s_with (Format_of : addr -> State -> rune -> option State)
    (h : heap) (arg : error) : option string :=
  match arg with
  | enil => Some "%!s(<nil>)"%string
  | multi _ => Error_of h arg
  | nilProxy => Some "<nil>"%string
  | ref a =>
      o ← h !! a;
      match o with
      | proxy _ => s ← Format_of a (mkState EmptyString []) rune_s; Some (buf s)
      | _ => Error_of h arg
      end
  end.

(** ** Package knownerror *)

(** [func New(text string) *Proxy] *)
Definition New (text : string) : M ProxyPtr :=
  b ← errors_New text;
  a ← alloc (proxy {| base := b; cause := enil; extends := [] |});
  mret (Some a).

(** [func Wrap(err error) *Proxy] *)
Definition Wrap (err : error) : M ProxyPtr :=
  if is_nil err then mret None
  else
    a ← alloc (proxy {| base := err; cause := enil; extends := [] |});
    mret (Some a).

(** [func (e *Proxy) WithCause(cause error) *Proxy] *)
Definition WithCause (e : ProxyPtr) (cause' : error) : M ProxyPtr :=
  if is_nil cause' then mret e
  else
    cpy ← load e;
    a ← alloc (proxy {| base := base cpy;
                        cause := cause';
                        extends := iface e :: extends cpy |});
    mret (Some a).

(** [func (e *Proxy) Extends(errs ...error) *Proxy] *)
Definition Extends (e : ProxyPtr) (errs : list error) : M ProxyPtr :=
  let nonNilErrs :=
    fold_left (fun nonNilErrs err =>
                 if negb (is_nil err) then nonNilErrs ++ [err] else nonNilErrs)
              errs [] in
  if Nat.eqb (length nonNilErrs) 0 then mret e
  else
    cpy ← load e;
    a ← alloc (proxy {| base := base cpy;
                        cause := cause cpy;
                        extends := extends cpy ++ nonNilErrs |});
    mret (Some a).

(** [func (e *Proxy) Error() string] *)
Definition Error (h : heap) (e : ProxyPtr) : option string :=
  Error_with (Error_of h) h e.

(** [func (e *Proxy) Unwrap() error] *)
Definition Unwrap (h : heap) (e : ProxyPtr) : option error :=
  p ← deref h e; Some (base p).

(** [func (e *Proxy) Cause() error] *)
Definition Cause (h : heap) (e : ProxyPtr) : option error :=
  p ← deref h e; Some (cause p).

(** [func (e *Proxy) Is(target error) bool] *)
Definition Is (h : heap) (e : ProxyPtr) (target : error) : option bool :=
  Is_with (errors_Is h) h e target.

(** [func (e *Proxy) As(target any) bool] *)
Definition As (h : heap) (e : ProxyPtr) (target : holder)
    : option (bool * holder) :=
  As_with (errors_As h) h e target.

Section Format.

(** [strconv.Quote], which [%q] applies to a string operand. *)
Variable Quote : string -> string.

(** [func (e *Proxy) Format(s fmt.State, verb rune)], over the printing
    of its cause. *)
Definition Format_with (verb_s : error -> option string)
    (h : heap) (e : ProxyPtr) (s : State) (verb : rune) : option State :=
  let case_s := msg ← Error h e; Some (State_Write s msg) in
  if Z.eqb verb rune_v then
    if Flag s rune_plus then
      p ← deref h e;
      if negb (is_nil (cause p)) then
        msg ← Error h e;
        c ← verb_s (cause p);
        Some (State_Write s (msg +:+ " (cause: " +:+ c +:+ ")"))
      else case_s
    else case_s
  else if Z.eqb verb rune_s then case_s
  else if Z.eqb verb rune_q then
    msg ← Error h e; Some (State_Write s (Quote msg))
  else Some s.

Fixpoint Format_ (n : nat) (h : heap) (e : ProxyPtr) (s : State)
    (verb : rune) {struct n} : option State :=
  match n with
  | O => None
  | S n =>
      Format_with (verb_s_with (fun a => Format_ n h (Some a)) h) h e s verb
  end.

Definition Format (h : heap) (e : ProxyPtr) (s : State) (verb : rune)
    : option State :=
  Format_ (fuel h) h e s verb.

(** [fmt.Sprintf(format, e)] for a format of one verb with [flags], for
    the verbs that [fmt] hands to [Format] (all but [%T] and [%p], which it
    prints itself).  [fmt] recovers a panic of [Format] on a nil pointer
    and prints [<nil>]; a panic on a live proxy, which [fmt] reports inside
    its output, is [None] here. *)
Definition Sprintf (h : heap) (flags : list rune) (verb : rune)
    (e : ProxyPtr) : option string :=
  match Format h e (mkState EmptyString flags) verb, e with
  | Some s, _ => Some (buf s)
  | None, None => Some "<nil>"%string
  | None, Some _ => None
  end.

End Format.

Section Newf.

(** The operands of [fmt.Errorf]. *)
Variable any : Type.

(** What [fmt] makes of a format and its operands: the text, and the
    operands of the [%w] verbs in operand order.  A format that names one
    operand in two [%w] verbs, which [fmt.Errorf] keeps once, is not
    covered. *)
Variable doPrintf : heap -> string -> list any -> string * list error.

(** [fmt.Errorf] *)
Definition fmt_Errorf (format : string) (a : list any) : M error := fun h =>
  let '(s, wrappedErrs) := doPrintf h format a in
  match wrappedErrs with
  | [] => errors_New s h
  | [w] => (x ← alloc (wrapError s w); mret (ref x)) h
  | _ =>
      (x ← alloc (wrapErrors s
                    (List.filter (fun err => negb (is_nil err)) wrappedErrs));
       mret (ref x)) h
  end.

(** [func Newf(format string, args ...any) *Proxy] *)
Definition Newf (format : string) (args : list any) : M ProxyPtr :=
  b ← fmt_Errorf format args;
  a ← alloc (proxy {| base := b; cause := enil; extends := [] |});
  mret (Some a).

End Newf.

(** ** Well-formed heaps

    The heaps that the package builds from live errors: every error held in
    an object points to an older object, is nil, or is no pointer at all.
    A nil [*Proxy] passed as an error (see [iface]) is stored like any
    other non-nil error, and a heap that holds one is not well formed. *)

(** The errors an object allocated at [a] can hold when every pointer was
    live when it was stored: nil, a value that is no pointer, or a pointer
    to an older object; never a nil pointer inside an interface. *)
Definition valid_inb (a : addr) (e : error) : bool :=
  match e with
  | ref b => Nat.ltb b a
  | nilProxy => false
  | _ => true
  end.

Definition live (e : error) : bool :=
  match e with
  | nilProxy => false
  | _ => true
  end.

Definition refs (o : object) : list error :=
  match o with
  | errorString _ | customError _ => []
  | wrapError _ err => [err]
  | wrapErrors _ errs => errs
  | proxy p => base p :: cause p :: extends p
  end.

(** [fmt.Errorf] keeps no nil in the list of a [wrapErrors]. *)
Definition object_ok (a : addr) (o : object) : bool :=
  forallb (valid_inb a) (refs o)
  && match o with
     | wrapErrors _ errs => forallb (fun err => negb (is_nil err)) errs
     | _ => true
     end.

Fixpoint wf_from (a : addr) (h : heap) : bool :=
  match h with
  | [] => true
  | o :: h' => object_ok a o && wf_from (S a) h'
  end.

Definition wf (h : heap) : Prop := wf_from 0 h = true.

(** ** A sample heap

    [ErrNotFound = errors.New("not found")], a [*customError], then
    [p = New("user not found")], [q = p.Extends(ErrNotFound, custom)] and
    [r = q.WithCause(errors.New("cause"))]. *)
Definition sample : heap :=
  [ errorString "not found";
    customError 8234;
    errorString "user not found";
    proxy {| base := ref 2; cause := enil; extends := [] |};
    proxy {| base := ref 2; cause := enil; extends := [ref 0; ref 1] |};
    errorString "cause";
    proxy {| base := ref 2; cause := ref 5; extends := [ref 4; ref 0; ref 1] |} ].

(** The fuel a walk from [e] needs: one unit per object on the way down. *)
Definition rank (e : error) : nat :=
  match e with
  | ref a => S a
  | _ => 0
  end.

(** * Properties *)

(** ** The heap *)

Lemma lookup_alloc_new (h : heap) (o : object) :
  (h ++ [o]) !! length h = Some o.
Proof. by rewrite list_lookup_middle. Qed.

Lemma lookup_alloc_old (h : heap) (o o' : object) (a : addr) :
  h !! a = Some o -> (h ++ [o']) !! a = Some o.
Proof. intros H. by apply lookup_app_l_Some. Qed.

Lemma lookup_fresh (h : heap) : h !! length h = None.
Proof. by apply lookup_ge_None_2. Qed.

Lemma lookup_lt (h : heap) (a : addr) (o : object) :
  h !! a = Some o -> a < length h.
Proof. intros H. by eapply lookup_lt_Some. Qed.

Lemma deref_lookup (h : heap) (a : addr) (p : Proxy) :
  h !! a = Some (proxy p) -> deref h (Some a) = Some p.
Proof. intros H. unfold deref. simpl. by rewrite H. Qed.

Lemma deref_inv (h : heap) (e : ProxyPtr) (p : Proxy) :
  deref h e = Some p -> exists a, e = Some a /\ h !! a = Some (proxy p).
Proof.
  unfold deref. destruct e as [a|]; simpl; [|done].
  destruct (h !! a) as [[]|] eqn:E; simpl; try done.
  intros [= ->]. eauto.
Qed.

Lemma valid_inb_mono (a b : addr) (e : error) :
  a <= b -> valid_inb a e = true -> valid_inb b e = true.
Proof.
  destruct e; simpl; auto.
  rewrite !Nat.ltb_lt. lia.
Qed.

Lemma valid_inb_rank (a : addr) (e : error) :
  valid_inb a e = true -> rank e <= a.
Proof. destruct e; simpl; rewrite ?Nat.ltb_lt; intros; lia. Qed.

Lemma valid_inb_live (a : addr) (e : error) :
  valid_inb a e = true -> live e = true.
Proof. by destruct e. Qed.

Lemma valid_inb_intro (a : addr) (e : error) :
  rank e <= a -> live e = true -> valid_inb a e = true.
Proof. destruct e; simpl; rewrite ?Nat.ltb_lt; intros; try done; lia. Qed.

Lemma wf_from_app (k : addr) (h1 h2 : heap) :
  wf_from k (h1 ++ h2) = wf_from k h1 && wf_from (k + length h1) h2.
Proof.
  revert k. induction h1 as [|o h1 IH]; intros k; simpl.
  - by rewrite Nat.add_0_r.
  - rewrite IH, <- andb_assoc. by replace (S k + length h1) with (k + S (length h1)) by lia.
Qed.

Lemma wf_from_lookup (k : addr) (h : heap) (a : addr) (o : object) :
  wf_from k h = true -> h !! a = Some o -> object_ok (k + a) o = true.
Proof.
  revert k a. induction h as [|o' h IH]; intros k a; simpl; [done|].
  intros [H1 H2]%andb_true_iff. destruct a as [|a]; simpl.
  - intros [= ->]. by rewrite Nat.add_0_r.
  - intros H. replace (k + S a) with (S k + a) by lia. by apply IH.
Qed.

Lemma wf_nil : wf [].
Proof. done. Qed.

Lemma wf_lookup (h : heap) (a : addr) (o : object) (e : error) :
  wf h -> h !! a = Some o -> e ∈ refs o -> rank e <= a.
Proof.
  intros Hwf Ha He. apply valid_inb_rank.
  pose proof (wf_from_lookup 0 h a o Hwf Ha) as H.
  apply andb_true_iff in H as [H _].
  rewrite forallb_forall in H. apply H. by apply list_elem_of_In.
Qed.

Lemma wf_lookup_live (h : heap) (a : addr) (o : object) (e : error) :
  wf h -> h !! a = Some o -> e ∈ refs o -> live e = true.
Proof.
  intros Hwf Ha He. apply (valid_inb_live a).
  pose proof (wf_from_lookup 0 h a o Hwf Ha) as H.
  apply andb_true_iff in H as [H _].
  rewrite forallb_forall in H. apply H. by apply list_elem_of_In.
Qed.

Lemma wf_lookup_valid (h : heap) (a : addr) (o : object) (e : error) :
  wf h -> h !! a = Some o -> e ∈ refs o -> valid_inb (length h) e = true.
Proof.
  intros Hwf Ha He. apply valid_inb_intro.
  - pose proof (wf_lookup h a o e Hwf Ha He). apply lookup_lt in Ha. lia.
  - by apply (wf_lookup_live h a o).
Qed.

Lemma wf_lookup_wrapErrors (h : heap) (a : addr) (msg : string)
    (errs : list error) (e : error) :
  wf h -> h !! a = Some (wrapErrors msg errs) -> e ∈ errs -> is_nil e = false.
Proof.
  intros Hwf Ha He.
  pose proof (wf_from_lookup 0 h a _ Hwf Ha) as H.
  apply andb_true_iff in H as [_ H].
  rewrite forallb_forall in H. apply negb_true_iff, H. by apply list_elem_of_In.
Qed.

Lemma wf_alloc (h : heap) (o : object) :
  wf h -> object_ok (length h) o = true -> wf (h ++ [o]).
Proof.
  unfold wf. intros Hwf Ho. rewrite wf_from_app, Hwf. simpl. by rewrite Ho.
Qed.

(** ** Loops with early return *)

Lemma range_any_mono (f g : error -> option bool) (l : list error) (b : bool) :
  (forall x b', x ∈ l -> f x = Some b' -> g x = Some b') ->
  range_any f l = Some b -> range_any g l = Some b.
Proof.
  induction l as [|x l IH]; simpl; [done|]. intros Hfg.
  destruct (f x) as [b'|] eqn:E; simpl; [|done].
  rewrite (Hfg x b') by (done || left). simpl.
  destruct b'; [done|]. apply IH. intros y c Hy. apply Hfg. by right.
Qed.

Lemma range_any_ext (f g : error -> option bool) (l : list error) :
  (forall x, x ∈ l -> f x = g x) -> range_any f l = range_any g l.
Proof.
  induction l as [|x l IH]; simpl; intros Hfg; [done|].
  rewrite (Hfg x) by left. destruct (g x) as [[]|]; simpl; try done.
  apply IH. intros y Hy. apply Hfg. by right.
Qed.

Lemma range_any_total (f : error -> option bool) (l : list error) :
  (forall x, x ∈ l -> is_Some (f x)) -> is_Some (range_any f l).
Proof.
  induction l as [|x l IH]; simpl; intros Hf; [done|].
  destruct (Hf x) as [b ->]; [left|]. simpl.
  destruct b; [done|]. apply IH. intros y Hy. apply Hf. by right.
Qed.

Lemma range_any_spec (f : error -> option bool) (l : list error) (b : bool) :
  range_any f l = Some b ->
  (b = true <-> Exists (fun x => f x = Some true) l).
Proof.
  revert b. induction l as [|x l IH]; simpl; intros b.
  - intros [= <-]. split; [done|]. by intros ?%Exists_nil.
  - destruct (f x) as [[]|] eqn:E; simpl; [| |done].
    + intros [= <-]. split; [|done]. intros _. by left.
    + intros H. rewrite (IH b H), Exists_cons. split; [by right|].
      intros [?|?]; [congruence|done].
Qed.

Lemma range_any_true (f : error -> option bool) (l : list error) :
  (forall x, x ∈ l -> is_Some (f x)) ->
  Exists (fun x => f x = Some true) l ->
  range_any f l = Some true.
Proof.
  intros Hf Hex. destruct (range_any_total f l Hf) as [b Hb].
  rewrite Hb. f_equal. by apply (range_any_spec f l b).
Qed.

Lemma range_any_false (f : error -> option bool) (l : list error) :
  Forall (fun x => f x = Some false) l -> range_any f l = Some false.
Proof.
  induction 1 as [|x l Hx _ IH]; simpl; [done|]. by rewrite Hx.
Qed.

(** ** The [errors.Is] walk: more fuel changes nothing, and on a
    well-formed heap the walk always returns *)

Lemma errors_Is_with_mono (f g : error -> error -> bool -> option bool)
    (err target : error) (b : bool) :
  (forall c b', f err target c = Some b' -> g err target c = Some b') ->
  errors_Is_with f err target = Some b -> errors_Is_with g err target = Some b.
Proof.
  unfold errors_Is_with. destruct (is_nil err || is_nil target); [done|]. auto.
Qed.

Lemma Is_with_mono (f g : error -> error -> option bool)
    (h : heap) (e : ProxyPtr) (target : error) (b : bool) :
  (forall p x b', deref h e = Some p -> x ∈ extends p ->
     f x target = Some b' -> g x target = Some b') ->
  Is_with f h e target = Some b -> Is_with g h e target = Some b.
Proof.
  unfold Is_with. destruct (is_nil target); [done|]. intros Hfg.
  destruct (deref h e) as [p|] eqn:E; simpl; [|done].
  apply range_any_mono. intros x b' Hx. by apply (Hfg p).
Qed.

(** The hook on the nil receiver: only a nil target is answered. *)
Lemma Is_with_nil (f : error -> error -> option bool) (h : heap) (target : error) :
  Is_with f h None target = if is_nil target then Some false else None.
Proof. unfold Is_with. by destruct (is_nil target). Qed.

Lemma is_mono (n m : nat) (h : heap) (err target : error) (c b : bool) :
  n <= m -> is_ n h err target c = Some b -> is_ m h err target c = Some b.
Proof.
  revert m err b c. induction n as [|n IH]; intros m err b c Hnm; [done|].
  destruct m as [|m]; [lia|]. simpl.
  destruct (c && error_eqb err target); [done|].
  destruct err as [|a| |]; [done| |done|by rewrite !Is_with_nil].
  destruct (h !! a) as [[s|msg err|msg errs|code|p]|]; simpl; try done.
  - destruct (is_nil err); [done|]. apply IH. lia.
  - apply range_any_mono. intros x b' _. apply IH. lia.
  - destruct (Is_with (errors_Is_with (is_ n h)) h (Some a) target)
      as [b1|] eqn:E; simpl; [|done].
    assert (Is_with (errors_Is_with (is_ m h)) h (Some a) target = Some b1) as ->.
    { revert E. apply Is_with_mono. intros _ x b' _ _.
      apply errors_Is_with_mono. intros c' b''. apply IH. lia. }
    simpl. destruct b1; [done|].
    destruct (is_nil (base p)); [done|]. apply IH. lia.
Qed.

Lemma is_total (h : heap) (n : nat) (err target : error) (c : bool) :
  wf h -> live err = true -> rank err < n -> rank err <= length h ->
  is_Some (is_ n h err target c).
Proof.
  intros Hwf. revert err c.
  induction n as [|n IH]; intros err c Hlive Hn Hh; [lia|].
  simpl. destruct (c && error_eqb err target); [done|].
  destruct err as [|a| |]; try done. simpl in Hn, Hh.
  destruct (lookup_lt_is_Some_2 h a ltac:(lia)) as [o Ho].
  rewrite Ho. simpl.
  assert (Hsub : forall x, x ∈ refs o -> forall c', is_Some (is_ n h x target c')).
  { intros x Hx c'. pose proof (wf_lookup h a o x Hwf Ho Hx).
    apply IH; [by apply (wf_lookup_live h a o)|lia..]. }
  destruct o as [s|msg err|msg errs|code|p]; simpl in Hsub; try done.
  - destruct (is_nil err); [done|]. apply Hsub. left.
  - apply range_any_total. intros x Hx. by apply Hsub.
  - unfold Is_with. destruct (is_nil target); simpl.
    + destruct (is_nil (base p)); [done|]. apply Hsub. left.
    + unfold deref. simpl. rewrite Ho. simpl.
      destruct (range_any_total (fun ext => errors_Is_with (is_ n h) ext target)
                  (extends p)) as [b ->].
      { intros x Hx. unfold errors_Is_with.
        destruct (is_nil x || is_nil target); [done|]. apply Hsub.
        by do 2 right. }
      simpl. destruct b; [done|].
      destruct (is_nil (base p)); [done|]. apply Hsub. left.
Qed.

(** On a well-formed heap, [errors.Is] returns for every error of the heap. *)
Lemma errors_Is_total (h : heap) (err target : error) :
  wf h -> valid_inb (length h) err = true -> is_Some (errors_Is h err target).
Proof.
  intros Hwf Hv. pose proof (valid_inb_rank _ _ Hv) as Hh.
  unfold errors_Is, errors_Is_with.
  destruct (is_nil err || is_nil target); [done|].
  apply is_total; [done|by apply (valid_inb_live (length h))| |done].
  unfold fuel. lia.
Qed.

(** Any fuel that covers the rank gives the result of [errors.Is]. *)
Lemma is_fuel_stable (h : heap) (n : nat) (err target : error) :
  wf h -> rank err < n -> rank err <= length h ->
  errors_Is_with (is_ n h) err target = errors_Is h err target.
Proof.
  intros Hwf Hn Hh. unfold errors_Is, errors_Is_with.
  destruct (is_nil err || is_nil target); [done|].
  destruct (live err) eqn:Hlive.
  2:{ destruct err; try done. destruct n as [|n]; [lia|].
      unfold fuel. cbn [is_]. by rewrite !Is_with_nil. }
  destruct (is_total h n err target (comparable target) Hwf Hlive Hn Hh)
    as [b Hb].
  destruct (Nat.le_ge_cases n (fuel h)).
  - rewrite Hb. symmetry. by apply (is_mono n).
  - destruct (is_total h (fuel h) err target (comparable target) Hwf Hlive)
      as [b' Hb']; [unfold fuel; lia|done|].
    rewrite Hb'. by apply (is_mono (fuel h)).
Qed.

(** One iteration of the walk at a proxy. *)
Lemma is_S_proxy (n : nat) (h : heap) (a : addr) (p : Proxy)
    (target : error) (c : bool) :
  h !! a = Some (proxy p) ->
  is_ (S n) h (ref a) target c
  = if c && error_eqb (ref a) target then Some true
    else
      b ← Is_with (errors_Is_with (is_ n h)) h (Some a) target;
      if b : bool then Some true
      else if is_nil (base p) then Some false
      else is_ n h (base p) target c.
Proof. intros Ha. simpl. by rewrite Ha. Qed.

(** An error of comparable dynamic type matches itself at once. *)
Lemma errors_Is_with_refl (n : nat) (h : heap) (err : error) :
  is_nil err = false -> comparable err = true ->
  errors_Is_with (is_ (S n) h) err err = Some true.
Proof.
  destruct err as [|a| |]; try done. intros _ _.
  unfold errors_Is_with. simpl. by rewrite Nat.eqb_refl.
Qed.

Lemma errors_Is_refl (h : heap) (err : error) :
  is_nil err = false -> comparable err = true -> errors_Is h err err = Some true.
Proof. apply errors_Is_with_refl. Qed.

(** A walk from [err] only reads objects below [rank err]. *)
Lemma is_agree (h1 h2 : heap) (k n : nat) (err target : error) (c : bool) :
  wf h1 -> (forall b, b < k -> h1 !! b = h2 !! b) -> rank err <= k ->
  is_ n h1 err target c = is_ n h2 err target c.
Proof.
  intros Hwf Hag. revert err c. induction n as [|n IH]; intros err c Hk; [done|].
  simpl. destruct (c && error_eqb err target); [done|].
  destruct err as [|a| |]; [done| |done|by rewrite !Is_with_nil]. simpl in Hk.
  rewrite <- (Hag a) by lia.
  destruct (h1 !! a) as [o|] eqn:Ho; simpl; [|done].
  assert (Hsub : forall x, x ∈ refs o ->
            forall c', is_ n h1 x target c' = is_ n h2 x target c').
  { intros x Hx c'. pose proof (wf_lookup h1 a o x Hwf Ho Hx). apply IH. lia. }
  destruct o as [s|msg err|msg errs|code|p]; simpl in Hsub; try done.
  - destruct (is_nil err); [done|]. apply Hsub. left.
  - apply range_any_ext. intros x Hx. by apply Hsub.
  - assert (Is_with (errors_Is_with (is_ n h1)) h1 (Some a) target
            = Is_with (errors_Is_with (is_ n h2)) h2 (Some a) target) as ->.
    { unfold Is_with, deref. simpl. rewrite <- (Hag a) by lia. rewrite Ho. simpl.
      destruct (is_nil target); [done|]. apply range_any_ext. intros x Hx.
      unfold errors_Is_with. destruct (is_nil x || is_nil target); [done|].
      apply Hsub. by do 2 right. }
    destruct (Is_with _ h2 (Some a) target) as [[]|]; simpl; try done.
    destruct (is_nil (base p)); [done|]. apply Hsub. left.
Qed.

(** ** What the operations compute *)

Lemma nonNilErrs_filter (errs acc : list error) :
  fold_left (fun nonNilErrs err =>
               if negb (is_nil err) then nonNilErrs ++ [err] else nonNilErrs)
            errs acc
  = acc ++ List.filter (fun err => negb (is_nil err)) errs.
Proof.
  revert acc. induction errs as [|err errs IH]; intros acc; simpl.
  - by rewrite app_nil_r.
  - rewrite IH. destruct (is_nil err); simpl; [done|]. by rewrite <- app_assoc.
Qed.

Lemma is_nil_false (e : error) : e <> enil <-> is_nil e = false.
Proof. destruct e; simpl; split; congruence. Qed.

Lemma WithCause_eq (h : heap) (a : addr) (p : Proxy) (c : error) :
  h !! a = Some (proxy p) -> c <> enil ->
  WithCause (Some a) c h
  = Some (Some (length h),
          h ++ [proxy {| base := base p; cause := c;
                         extends := ref a :: extends p |}]).
Proof.
  intros Ha Hc%is_nil_false. unfold WithCause. rewrite Hc.
  unfold mbind, M_bind, load. by rewrite (deref_lookup h a p Ha).
Qed.

Lemma Extends_eq (h : heap) (a : addr) (p : Proxy) (errs : list error) :
  h !! a = Some (proxy p) ->
  List.filter (fun err => negb (is_nil err)) errs <> [] ->
  Extends (Some a) errs h
  = Some (Some (length h),
          h ++ [proxy {| base := base p; cause := cause p;
                         extends := extends p
                           ++ List.filter (fun err => negb (is_nil err)) errs |}]).
Proof.
  intros Ha Hne. unfold Extends. rewrite nonNilErrs_filter. simpl.
  destruct (List.filter _ errs) as [|x l]; [done|]. simpl.
  unfold mbind, M_bind, load. by rewrite (deref_lookup h a p Ha).
Qed.

Lemma Extends_noop (h : heap) (e : ProxyPtr) (errs : list error) :
  List.filter (fun err => negb (is_nil err)) errs = [] ->
  Extends e errs h = Some (e, h).
Proof.
  intros Hnil. unfold Extends. rewrite nonNilErrs_filter. simpl. by rewrite Hnil.
Qed.

(** The hook returns [true] for a comparable entry of the extends list. *)
Lemma Is_entry (h : heap) (a : addr) (p : Proxy) (target : error) :
  wf h -> h !! a = Some (proxy p) ->
  target ∈ extends p -> target <> enil -> comparable target = true ->
  Is h (Some a) target = Some true.
Proof.
  intros Hwf Ha Hin Hnil%is_nil_false Hcmp. unfold Is, Is_with.
  rewrite Hnil, (deref_lookup h a p Ha). simpl.
  apply range_any_true.
  - intros x Hx. apply errors_Is_total; [done|].
    apply (wf_lookup_valid h a (proxy p)); [done..|]. by do 2 right.
  - apply Exists_exists. exists target. split; [done|]. by apply errors_Is_refl.
Qed.

(** ** The identity-check hook *)

(** C1: for a proxy [p], the hook [Is(target)] returns false when [target]
    is nil; for any other target it returns, and returns true exactly when
    [errors.Is] reports a match of [target] for some entry of [p]'s extends
    list (entries are walked recursively and may be proxies); the result
    does not depend on [p]'s base: putting any other base in [p] gives the
    same answer. *)
Theorem Is_spec (h : heap) (a : addr) (p : Proxy) (target : error) :
  wf h -> h !! a = Some (proxy p) ->
  Is h (Some a) enil = Some false /\
  (target <> enil ->
   exists b : bool,
     Is h (Some a) target = Some b /\
     (b = true <->
      Exists (fun ext => errors_Is h ext target = Some true) (extends p))) /\
  (forall base' : error,
     Is (<[a := proxy {| base := base'; cause := cause p;
                         extends := extends p |}]> h) (Some a) target
     = Is h (Some a) target).
Proof.
  intros Hwf Ha.
  assert (Hrank : forall x, x ∈ extends p -> rank x <= a).
  { intros x Hx. apply (wf_lookup h a (proxy p) x Hwf Ha). by do 2 right. }
  pose proof (lookup_lt h a _ Ha) as Hlt.
  split; [done|]. split.
  - intros Hnil%is_nil_false. unfold Is, Is_with.
    rewrite Hnil, (deref_lookup h a p Ha). simpl.
    destruct (range_any_total (fun ext => errors_Is h ext target) (extends p))
      as [b Hb].
    { intros x Hx. apply errors_Is_total; [done|].
      apply (wf_lookup_valid h a (proxy p)); [done..|]. by do 2 right. }
    exists b. split; [done|]. by apply range_any_spec.
  - intros base'. unfold Is, Is_with. destruct (is_nil target); [done|].
    rewrite (deref_lookup h a p Ha).
    rewrite (deref_lookup (<[a:=_]> h) a
               {| base := base'; cause := cause p; extends := extends p |})
      by (by rewrite list_lookup_insert_eq).
    simpl. apply range_any_ext. intros x Hx.
    unfold errors_Is, errors_Is_with, fuel. rewrite length_insert.
    destruct (is_nil x || is_nil target); [done|]. symmetry.
    apply (is_agree h _ a); [done| |by apply Hrank].
    intros b Hb. rewrite list_lookup_insert_ne by lia. done.
Qed.

Lemma Is_spec_witness :
  wf sample /\
  (exists b : bool,
     Is sample (Some 4) (ref 0) = Some b /\
     (b = true <->
      Exists (fun ext => errors_Is sample ext (ref 0) = Some true) [ref 0; ref 1])).
Proof.
  split; [reflexivity|].
  apply (Is_spec sample 4 {| base := ref 2; cause := enil;
                             extends := [ref 0; ref 1] |} (ref 0));
    [reflexivity | reflexivity | discriminate].
Defined.

(** ** Attaching a cause *)

(** C2: for a proxy [p] at [a] and a non-nil [c], [p.WithCause(c)] returns
    a new instance (an address not in use before, so different from [a])
    whose [Cause()] is [c], whose extends list is [p] itself followed by the
    prior entries of [p] in their order, and whose base is that of [p];
    every object of the heap, the receiver included, is left as it was. *)
Theorem WithCause_spec (h : heap) (a : addr) (p : Proxy) (c : error) :
  h !! a = Some (proxy p) -> c <> enil ->
  exists (a' : addr) (h' : heap) (p' : Proxy),
    WithCause (Some a) c h = Some (Some a', h') /\
    a' <> a /\ h !! a' = None /\
    deref h' (Some a') = Some p' /\
    Cause h' (Some a') = Some c /\
    extends p' = ref a :: extends p /\
    base p' = base p /\
    (forall b o, h !! b = Some o -> h' !! b = Some o) /\
    deref h' (Some a) = Some p.
Proof.
  intros Ha Hc.
  exists (length h),
    (h ++ [proxy {| base := base p; cause := c; extends := ref a :: extends p |}]),
    {| base := base p; cause := c; extends := ref a :: extends p |}.
  split; [by apply WithCause_eq|].
  pose proof (lookup_lt h a _ Ha).
  assert (Hnew : deref (h ++ [proxy {| base := base p; cause := c;
                                       extends := ref a :: extends p |}])
                   (Some (length h))
                 = Some {| base := base p; cause := c;
                           extends := ref a :: extends p |}).
  { apply deref_lookup, lookup_alloc_new. }
  split_and!; try done.
  - lia.
  - apply lookup_fresh.
  - unfold Cause. by rewrite Hnew.
  - intros b o Hb. by apply lookup_alloc_old.
  - by apply deref_lookup, lookup_alloc_old.
Qed.

Lemma WithCause_spec_witness :
  sample !! 4 = Some (proxy {| base := ref 2; cause := enil;
                               extends := [ref 0; ref 1] |}) /\
  exists (a' : addr) (h' : heap) (p' : Proxy),
    WithCause (Some 4) (ref 5) sample = Some (Some a', h') /\
    a' <> 4 /\ sample !! a' = None /\
    deref h' (Some a') = Some p' /\
    Cause h' (Some a') = Some (ref 5) /\
    extends p' = ref 4 :: [ref 0; ref 1] /\
    base p' = ref 2 /\
    (forall b o, sample !! b = Some o -> h' !! b = Some o) /\
    deref h' (Some 4) = Some {| base := ref 2; cause := enil;
                                extends := [ref 0; ref 1] |}.
Proof.
  split; [reflexivity|].
  apply (WithCause_spec sample 4 {| base := ref 2; cause := enil;
                                   extends := [ref 0; ref 1] |} (ref 5));
    [reflexivity | discriminate].
Defined.

(** C3: attaching a non-nil cause [c] to a proxy [x] preserves the
    identity of [x]: the [Is] hook of [x.WithCause(c)] returns true for the
    target [x], so does [errors.Is], and [Cause()] of the result is [c]. *)
Theorem WithCause_preserves_identity (h : heap) (a : addr) (x : Proxy) (c : error) :
  h !! a = Some (proxy x) -> c <> enil ->
  exists (a' : addr) (h' : heap),
    WithCause (Some a) c h = Some (Some a', h') /\
    Is h' (Some a') (ref a) = Some true /\
    errors_Is h' (ref a') (ref a) = Some true /\
    Cause h' (Some a') = Some c.
Proof.
  intros Ha Hc. eexists _, _. split; [by apply WithCause_eq|].
  pose proof (lookup_lt h a _ Ha) as Hlt.
  set (p' := {| base := base x; cause := c; extends := ref a :: extends x |}).
  assert (Hnew : (h ++ [proxy p']) !! length h = Some (proxy p'))
    by apply lookup_alloc_new.
  assert (Hhook : forall n, Is_with (errors_Is_with (is_ (S n) (h ++ [proxy p'])))
                    (h ++ [proxy p']) (Some (length h)) (ref a) = Some true).
  { intros n. unfold Is_with. rewrite (deref_lookup _ _ _ Hnew).
    cbn [is_nil mbind option_bind p' extends range_any].
    by rewrite errors_Is_with_refl. }
  split_and!.
  - apply Hhook.
  - unfold errors_Is, errors_Is_with, fuel. simpl.
    rewrite (proj2 (Nat.eqb_neq (length h) a)) by lia.
    rewrite Hnew. simpl. rewrite length_app, Nat.add_1_r.
    by rewrite Hhook.
  - unfold Cause. by rewrite (deref_lookup _ _ _ Hnew).
Qed.

Lemma WithCause_preserves_identity_witness :
  sample !! 4 = Some (proxy {| base := ref 2; cause := enil;
                               extends := [ref 0; ref 1] |}) /\
  exists (a' : addr) (h' : heap),
    WithCause (Some 4) (ref 5) sample = Some (Some a', h') /\
    Is h' (Some a') (ref 4) = Some true /\
    errors_Is h' (ref a') (ref 4) = Some true /\
    Cause h' (Some a') = Some (ref 5).
Proof.
  split; [reflexivity|].
  apply (WithCause_preserves_identity sample 4
           {| base := ref 2; cause := enil; extends := [ref 0; ref 1] |} (ref 5));
    [reflexivity | discriminate].
Defined.

(** ** Adding categories *)

(** C4: [p.Extends(errs...)] drops the nil arguments; when none is left it
    returns [p] itself (the same address, the heap untouched); otherwise it
    returns a new instance whose extends list is the prior list of [p]
    followed by the non-nil arguments, in their order and with their
    duplicates, and whose base and cause are those of [p]; no existing
    object changes. *)
Theorem Extends_spec (h : heap) (a : addr) (p : Proxy) (errs : list error) :
  h !! a = Some (proxy p) ->
  let nonNilErrs := List.filter (fun err => negb (is_nil err)) errs in
  (nonNilErrs = [] -> Extends (Some a) errs h = Some (Some a, h)) /\
  (nonNilErrs <> [] ->
   exists (a' : addr) (h' : heap) (p' : Proxy),
     Extends (Some a) errs h = Some (Some a', h') /\
     a' <> a /\ h !! a' = None /\
     deref h' (Some a') = Some p' /\
     extends p' = extends p ++ nonNilErrs /\
     base p' = base p /\ cause p' = cause p /\
     (forall b o, h !! b = Some o -> h' !! b = Some o)).
Proof.
  intros Ha nonNilErrs. split.
  - apply Extends_noop.
  - intros Hne.
    exists (length h),
      (h ++ [proxy {| base := base p; cause := cause p;
                      extends := extends p ++ nonNilErrs |}]),
      {| base := base p; cause := cause p; extends := extends p ++ nonNilErrs |}.
    pose proof (lookup_lt h a _ Ha).
    split_and!; try done.
    + by apply Extends_eq.
    + lia.
    + apply lookup_fresh.
    + apply deref_lookup, lookup_alloc_new.
    + intros b o Hb. by apply lookup_alloc_old.
Qed.

Lemma Extends_spec_witness :
  sample !! 3 = Some (proxy {| base := ref 2; cause := enil; extends := [] |}) /\
  (exists (a' : addr) (h' : heap) (p' : Proxy),
     Extends (Some 3) [ref 0; enil; ref 1; ref 0] sample = Some (Some a', h') /\
     a' <> 3 /\ sample !! a' = None /\
     deref h' (Some a') = Some p' /\
     extends p' = [] ++ [ref 0; ref 1; ref 0] /\
     base p' = ref 2 /\ cause p' = enil /\
     (forall b o, sample !! b = Some o -> h' !! b = Some o)).
Proof.
  split; [reflexivity|].
  apply (Extends_spec sample 3 {| base := ref 2; cause := enil; extends := [] |}
           [ref 0; enil; ref 1; ref 0]); [reflexivity | discriminate].
Defined.

(** C5: a nil input is a no-op and never a fault: [Wrap(nil)] returns the
    nil pointer; [e.WithCause(nil)] returns [e] itself, also when called
    again on its own result; [e.Extends()] and [e.Extends] of nil arguments
    only return [e] itself.  No call allocates, and none reads the
    receiver, so this holds for every pointer [e]. *)
Theorem nil_is_noop (h : heap) (e : ProxyPtr) (errs : list error) :
  Wrap enil h = Some (None, h) /\
  WithCause e enil h = Some (e, h) /\
  (e' ← WithCause e enil; WithCause e' enil) h = Some (e, h) /\
  Extends e [] h = Some (e, h) /\
  (Forall (fun err => err = enil) errs -> Extends e errs h = Some (e, h)).
Proof.
  split_and!; try done.
  intros Hall. apply Extends_noop.
  induction Hall as [|err l -> _ IH]; simpl; done.
Qed.

Lemma nil_is_noop_witness :
  Forall (fun err => err = enil) [enil; enil] /\
  Extends (Some 3) [enil; enil] sample = Some (Some 3, sample).
Proof.
  split; [by repeat constructor|].
  apply (nil_is_noop sample (Some 3) [enil; enil]). by repeat constructor.
Defined.

(** ** Construction and unwrapping *)

(** C7: for a non-nil [err], [Wrap(err)] returns a proxy whose base is
    [err] as given, with no cause and no extends, so [Wrap(err).Unwrap()]
    is [err], and the chain walk of [errors.Is] goes on into [err]; the
    proxies of [New] and [Newf] unwrap to the base error they were given:
    the [errors.New(text)] value and the result of [fmt.Errorf]. *)
Theorem Unwrap_base (h : heap) (err : error) (text : string)
    (any : Type) (doPrintf : heap -> string -> list any -> string * list error)
    (format : string) (args : list any) :
  err <> enil ->
  (exists (a : addr) (h' : heap),
     Wrap err h = Some (Some a, h') /\
     deref h' (Some a) = Some {| base := err; cause := enil; extends := [] |} /\
     Unwrap h' (Some a) = Some err /\
     (comparable err = true -> errors_Is h' (ref a) err = Some true)) /\
  (exists (a : addr) (h' : heap),
     New text h = Some (Some a, h') /\
     Unwrap h' (Some a) = Some (ref (length h)) /\
     h' !! length h = Some (errorString text)) /\
  (exists (b : error) (h1 : heap) (a : addr) (h' : heap),
     fmt_Errorf any doPrintf format args h = Some (b, h1) /\
     Newf any doPrintf format args h = Some (Some a, h') /\
     b <> enil /\
     Unwrap h' (Some a) = Some b).
Proof.
  intros Hnil. pose proof (proj1 (is_nil_false err) Hnil) as Hn.
  split_and!.
  - set (p := {| base := err; cause := enil; extends := [] |}).
    exists (length h), (h ++ [proxy p]).
    assert (Hnew : (h ++ [proxy p]) !! length h = Some (proxy p))
      by apply lookup_alloc_new.
    split_and!.
    + unfold Wrap. by rewrite Hn.
    + by apply deref_lookup.
    + unfold Unwrap. by rewrite (deref_lookup _ _ _ Hnew).
    + intros Hcmp. unfold errors_Is, errors_Is_with, fuel. cbn [is_nil orb].
      rewrite Hn, Hcmp. cbn [is_]. cbn [andb].
      destruct (error_eqb (ref (length h)) err); [done|].
      rewrite Hnew. cbn [mbind option_bind].
      unfold Is_with at 1. rewrite Hn, (deref_lookup _ _ _ Hnew).
      cbn [mbind option_bind p extends range_any base]. rewrite Hn.
      rewrite length_app, Nat.add_1_r.
      pose proof (errors_Is_with_refl (length h) (h ++ [proxy p]) err Hn Hcmp) as H.
      unfold errors_Is_with in H. rewrite Hn, Hcmp in H. exact H.
  - exists (S (length h)),
      ((h ++ [errorString text])
         ++ [proxy {| base := ref (length h); cause := enil; extends := [] |}]).
    split_and!.
    + unfold New, errors_New, mbind, M_bind, alloc, mret, M_ret.
      by rewrite length_app, Nat.add_1_r.
    + unfold Unwrap.
      rewrite (deref_lookup _ _ {| base := ref (length h); cause := enil;
                                   extends := [] |}); [done|].
      replace (S (length h)) with (length (h ++ [errorString text]))
        by (rewrite length_app; simpl; lia).
      apply lookup_alloc_new.
    + apply lookup_alloc_old, lookup_alloc_new.
  - unfold Newf, fmt_Errorf, errors_New, mbind, M_bind, alloc, mret, M_ret.
    destruct (doPrintf h format args) as [s [|w [|w' ws]]];
      eexists _, _, _, _; (split_and!; [reflexivity|reflexivity|discriminate|]);
      unfold Unwrap;
      match goal with
      | |- context [deref (?h0 ++ [proxy ?p]) _] =>
          rewrite (deref_lookup (h0 ++ [proxy p]) (length h0) p)
            by apply lookup_alloc_new
      end; done.
Qed.

Lemma Unwrap_base_witness :
  ref 0 <> enil /\
  exists (a : addr) (h' : heap),
    Wrap (ref 0) sample = Some (Some a, h') /\
    deref h' (Some a) = Some {| base := ref 0; cause := enil; extends := [] |} /\
    Unwrap h' (Some a) = Some (ref 0) /\
    (comparable (ref 0) = true -> errors_Is h' (ref a) (ref 0) = Some true).
Proof.
  split; [discriminate|].
  apply (Unwrap_base sample (ref 0) "text" unit
           (fun _ format _ => (format, [])) "format" []).
  discriminate.
Defined.

(** ** Matching the extended errors *)

Lemma refs_valid (h : heap) (a : addr) (o : object) :
  wf h -> h !! a = Some o -> forallb (valid_inb (length h)) (refs o) = true.
Proof.
  intros Hwf Ha. apply forallb_forall. intros e He%list_elem_of_In.
  by apply (wf_lookup_valid h a o).
Qed.

Lemma wf_Extends (h : heap) (a : addr) (p : Proxy) (l : list error) :
  wf h -> h !! a = Some (proxy p) ->
  forallb (valid_inb (length h)) l = true ->
  wf (h ++ [proxy {| base := base p; cause := cause p;
                     extends := extends p ++ l |}]).
Proof.
  intros Hwf Ha Hl. apply wf_alloc; [done|].
  pose proof (refs_valid h a _ Hwf Ha) as H. unfold object_ok. simpl in *.
  apply andb_true_iff in H as [-> H]. apply andb_true_iff in H as [-> H].
  by rewrite forallb_app, H, Hl.
Qed.




(** It also fails for a nil pointer held in the interface: with
    [e1 = Wrap(nil)] converted to [error], which is not nil, [Extends]
    stores [e1], and the hook of [x.Extends(e1, e2)] faults on the target
    [e2] when it reaches [e1]. *)
Lemma Extends_accumulate_nil_pointer :
  iface None <> enil /\
  exists (r : addr) (h' : heap) (q : Proxy),
    Extends (Some 3) [iface None; ref 0] sample = Some (Some r, h') /\
    deref h' (Some r) = Some q /\
    extends q = [iface None; ref 0] /\
    Is h' (Some r) (ref 0) = None.
Proof.
  split; [discriminate|]. by eexists _, _, _.
Qed.

(** ** The cause is not a category *)

(** C10: attaching a non-nil cause [c] to [p] does not make the result
    match [c]: when no entry of the new extends list ([p] and the prior
    entries of [p]) matches [c] under [errors.Is], the [Is] hook of
    [p.WithCause(c)] returns false for the target [c]; [Unwrap] still
    returns the base of [p], and only [Cause()] returns [c].  In particular,
    for a sentinel [c] made by [errors.New] before, [New(t).WithCause(c)]
    has an [Is] hook that returns false for [c], [errors.Is] does not find
    [c] in it either, and its [Unwrap()] is not [c]. *)
Theorem cause_not_matched (h : heap) (a : addr) (p : Proxy) (c : error)
    (t : string) (k : addr) (s : string) :
  h !! a = Some (proxy p) -> c <> enil ->
  (exists (a' : addr) (h' : heap),
     WithCause (Some a) c h = Some (Some a', h') /\
     ((forall ext, ext ∈ ref a :: extends p -> errors_Is h' ext c = Some false) ->
      Is h' (Some a') c = Some false) /\
     Unwrap h' (Some a') = Unwrap h (Some a) /\
     Cause h' (Some a') = Some c) /\
  (h !! k = Some (errorString s) ->
   exists (r : addr) (h' : heap),
     (x ← New t; WithCause x (ref k)) h = Some (Some r, h') /\
     Is h' (Some r) (ref k) = Some false /\
     errors_Is h' (ref r) (ref k) = Some false /\
     Unwrap h' (Some r) <> Some (ref k) /\
     Cause h' (Some r) = Some (ref k)).
Proof.
  intros Ha Hc. split.
  - set (p' := {| base := base p; cause := c; extends := ref a :: extends p |}).
    exists (length h), (h ++ [proxy p']).
    assert (Hnew : deref (h ++ [proxy p']) (Some (length h)) = Some p')
      by apply deref_lookup, lookup_alloc_new.
    split_and!.
    + by apply WithCause_eq.
    + intros Hno. unfold Is, Is_with.
      rewrite (proj1 (is_nil_false c) Hc), Hnew.
      apply range_any_false, Forall_forall. exact Hno.
    + unfold Unwrap. by rewrite Hnew, (deref_lookup h a p Ha).
    + unfold Cause. by rewrite Hnew.
  - intros Hk. pose proof (lookup_lt h k _ Hk) as Hlt.
    set (n := length h).
    set (o0 := errorString t).
    set (p0 := {| base := ref n; cause := enil; extends := [] |}).
    set (p1 := {| base := ref n; cause := ref k; extends := [ref (S n)] |}).
    set (h' := ((h ++ [o0]) ++ [proxy p0]) ++ [proxy p1]).
    assert (Hl0 : h' !! n = Some o0)
      by (do 2 apply lookup_alloc_old; apply lookup_alloc_new).
    assert (Hl1 : h' !! S n = Some (proxy p0)).
    { apply lookup_alloc_old.
      replace (S n) with (length (h ++ [o0])) by (rewrite length_app; simpl; lia).
      apply lookup_alloc_new. }
    assert (Hl2 : h' !! S (S n) = Some (proxy p1)).
    { replace (S (S n)) with (length ((h ++ [o0]) ++ [proxy p0]))
        by (rewrite !length_app; simpl; lia).
      apply lookup_alloc_new. }
    assert (Hfuel : 3 <= fuel h').
    { unfold fuel, h'. rewrite !length_app. simpl. lia. }
    assert (E0 : Nat.eqb n k = false) by (apply Nat.eqb_neq; lia).
    assert (E1 : Nat.eqb (S n) k = false) by (apply Nat.eqb_neq; lia).
    assert (E2 : Nat.eqb (S (S n)) k = false) by (apply Nat.eqb_neq; lia).
    assert (W0 : forall m, is_ (S m) h' (ref n) (ref k) true = Some false).
    { intros m. cbn [is_ andb error_eqb]. by rewrite E0, Hl0. }
    assert (W1 : forall m, is_ (S (S m)) h' (ref (S n)) (ref k) true = Some false).
    { intros m. rewrite (is_S_proxy _ _ _ _ _ _ Hl1).
      cbn [andb error_eqb]. rewrite E1. unfold Is_with.
      rewrite (deref_lookup _ _ _ Hl1).
      cbn [is_nil mbind option_bind p0 extends range_any base]. apply W0. }
    assert (Hhook : forall m,
              Is_with (errors_Is_with (is_ (S (S m)) h')) h' (Some (S (S n))) (ref k)
              = Some false).
    { intros m. unfold Is_with. rewrite (deref_lookup _ _ _ Hl2).
      cbn [is_nil mbind option_bind p1 extends range_any].
      unfold errors_Is_with. cbn [is_nil orb comparable]. by rewrite W1. }
    exists (S (S n)), h'. split_and!.
    + unfold New, errors_New, WithCause, load, mbind, M_bind, alloc, mret, M_ret.
      cbn [is_nil]. fold n. fold o0.
      replace (length (h ++ [o0])) with (S n) by (rewrite length_app; simpl; lia).
      fold p0.
      rewrite (deref_lookup _ (S n) p0).
      2:{ replace (S n) with (length (h ++ [o0]))
            by (rewrite length_app; simpl; lia).
          apply lookup_alloc_new. }
      cbn [mbind option_bind iface from_option p0 base extends].
      replace (length ((h ++ [o0]) ++ [proxy p0])) with (S (S n))
        by (rewrite !length_app; simpl; lia).
      done.
    + unfold Is, errors_Is, fuel. destruct (length h') as [|m] eqn:El.
      { unfold fuel in Hfuel. lia. }
      apply Hhook.
    + unfold errors_Is, errors_Is_with. cbn [is_nil orb comparable].
      apply (is_mono 3); [done|].
      rewrite (is_S_proxy _ _ _ _ _ _ Hl2).
      cbn [andb error_eqb]. rewrite E2, Hhook.
      cbn [mbind option_bind p1 base is_nil]. apply W0.
    + unfold Unwrap. rewrite (deref_lookup _ _ _ Hl2). simpl.
      intros [= Heq]. lia.
    + unfold Cause. by rewrite (deref_lookup _ _ _ Hl2).
Qed.

Lemma cause_not_matched_witness :
  sample !! 3 = Some (proxy {| base := ref 2; cause := enil; extends := [] |}) /\
  sample !! 5 = Some (errorString "cause") /\
  exists (a' : addr) (h' : heap),
    WithCause (Some 3) (ref 5) sample = Some (Some a', h') /\
    ((forall ext, ext ∈ ref 3 :: [] -> errors_Is h' ext (ref 5) = Some false) ->
     Is h' (Some a') (ref 5) = Some false) /\
    Unwrap h' (Some a') = Unwrap sample (Some 3) /\
    Cause h' (Some a') = Some (ref 5).
Proof.
  split; [reflexivity|]. split; [reflexivity|].
  apply (cause_not_matched sample 3
           {| base := ref 2; cause := enil; extends := [] |} (ref 5)
           "t" 5 "cause"); [reflexivity | discriminate].
Defined.

(** ** The [errors.As] walk *)

Lemma range_first_mono (f g : error -> holder -> option (bool * holder))
    (l : list error) (t : holder) (r : bool * holder) :
  (forall x t' r', x ∈ l -> f x t' = Some r' -> g x t' = Some r') ->
  range_first f l t = Some r -> range_first g l t = Some r.
Proof.
  revert t. induction l as [|x l IH]; simpl; intros t Hfg; [done|].
  destruct (f x t) as [[b t']|] eqn:E; simpl; [|done].
  rewrite (Hfg x t (b, t')) by (done || left). simpl.
  destruct b; [done|]. apply IH. intros y t'' r' Hy. apply Hfg. by right.
Qed.

Lemma range_first_total (f : error -> holder -> option (bool * holder))
    (l : list error) (t : holder) :
  (forall x t', x ∈ l -> is_Some (f x t')) -> is_Some (range_first f l t).
Proof.
  revert t. induction l as [|x l IH]; simpl; intros t Hf; [done|].
  destruct (Hf x t) as [[b t'] ->]; [left|]. simpl.
  destruct b; [done|]. apply IH. intros y t'' Hy. apply Hf. by right.
Qed.

Lemma range_first_unchanged (f : error -> holder -> option (bool * holder))
    (l : list error) (t t' : holder) :
  (forall x t1 t2, x ∈ l -> f x t1 = Some (false, t2) -> t2 = t1) ->
  range_first f l t = Some (false, t') -> t' = t.
Proof.
  revert t. induction l as [|x l IH]; simpl; intros t Hf.
  - by intros [= <-].
  - destruct (f x t) as [[[] t1]|] eqn:E; simpl; try done.
    intros H. rewrite (Hf x t t1) in H by (done || left).
    apply IH; [|done]. intros y t2 t3 Hy. apply Hf. by right.
Qed.

Lemma range_first_hit (f : error -> holder -> option (bool * holder))
    (l1 l2 : list error) (x : error) (t t' : holder) :
  Forall (fun y => f y t = Some (false, t)) l1 ->
  f x t = Some (true, t') ->
  range_first f (l1 ++ x :: l2) t = Some (true, t').
Proof.
  induction 1 as [|y l1 Hy _ IH]; simpl; intros Hx.
  - by rewrite Hx.
  - rewrite Hy. simpl. by apply IH.
Qed.

Lemma range_first_miss (f : error -> holder -> option (bool * holder))
    (l : list error) (t : holder) :
  Forall (fun y => f y t = Some (false, t)) l ->
  range_first f l t = Some (false, t).
Proof.
  induction 1 as [|y l Hy _ IH]; simpl; [done|]. by rewrite Hy.
Qed.

Lemma errors_As_with_mono (f g : error -> holder -> option (bool * holder))
    (err : error) (t : holder) (r : bool * holder) :
  (f err t = Some r -> g err t = Some r) ->
  errors_As_with f err t = Some r -> errors_As_with g err t = Some r.
Proof. unfold errors_As_with. destruct (is_nil err); [done|]. auto. Qed.

(** The hook on the nil receiver faults. *)
Lemma As_with_nil (f : error -> holder -> option (bool * holder))
    (h : heap) (t : holder) :
  As_with f h None t = None.
Proof. done. Qed.

Lemma as_mono (n m : nat) (h : heap) (err : error) (t : holder)
    (r : bool * holder) :
  n <= m -> as_ n h err t = Some r -> as_ m h err t = Some r.
Proof.
  revert m err t r. induction n as [|n IH]; intros m err t r Hnm; [done|].
  destruct m as [|m]; [lia|]. simpl.
  destruct (TypeOf h err) as [k|]; simpl; [|done].
  destruct (AssignableTo k (elem t)); [done|].
  destruct err as [|a| |]; [done| |done|by rewrite ?As_with_nil].
  destruct (h !! a) as [[s|msg err|msg errs|code|p]|]; simpl; try done.
  - destruct (is_nil err); [done|]. apply IH. lia.
  - apply range_first_mono. intros x t' r' _. apply IH. lia.
  - destruct (As_with (errors_As_with (as_ n h)) h (Some a) t)
      as [[b1 t1]|] eqn:E; simpl; [|done].
    assert (As_with (errors_As_with (as_ m h)) h (Some a) t = Some (b1, t1)) as ->.
    { revert E. unfold As_with. destruct (deref h (Some a)); simpl; [|done].
      apply range_first_mono. intros x t' r' _.
      apply errors_As_with_mono, IH. lia. }
    simpl. destruct b1; [done|].
    destruct (is_nil (base p)); [done|]. apply IH. lia.
Qed.

Lemma as_total (h : heap) (n : nat) (err : error) (t : holder) :
  wf h -> is_nil err = false -> live err = true ->
  rank err < n -> rank err <= length h ->
  is_Some (as_ n h err t).
Proof.
  intros Hwf. revert err t.
  induction n as [|n IH]; intros err t Hnil Hlive Hn Hh; [lia|].
  destruct err as [|a| |]; [done| | |done]; simpl in *.
  2:{ by destruct (AssignableTo Kmulti (elem t)). }
  destruct (lookup_lt_is_Some_2 h a ltac:(lia)) as [o Ho].
  rewrite Ho. simpl. destruct (AssignableTo (kind_of o) (elem t)); [done|].
  assert (Hsub : forall x, x ∈ refs o -> is_nil x = false ->
            forall t', is_Some (as_ n h x t')).
  { intros x Hx Hnx t'. pose proof (wf_lookup h a o x Hwf Ho Hx).
    apply IH; [done|by apply (wf_lookup_live h a o)|lia..]. }
  destruct o as [s|msg err|msg errs|code|p]; simpl in Hsub; try done.
  - destruct (is_nil err) eqn:E; [done|]. apply Hsub; [left|done].
  - apply range_first_total. intros x t' Hx. apply Hsub; [done|].
    by apply (wf_lookup_wrapErrors h a msg errs).
  - unfold As_with, deref. simpl. rewrite Ho. simpl.
    destruct (range_first_total (errors_As_with (as_ n h)) (extends p) t)
      as [[b t1] ->].
    { intros x t' Hx. unfold errors_As_with.
      destruct (is_nil x) eqn:E; [done|]. apply Hsub; [by do 2 right|done]. }
    simpl. destruct b; [done|].
    destruct (is_nil (base p)) eqn:E; [done|]. apply Hsub; [left|done].
Qed.

(** A failed extraction leaves the target as it was. *)
Lemma as_unchanged (n : nat) (h : heap) (err : error) (t t' : holder) :
  as_ n h err t = Some (false, t') -> t' = t.
Proof.
  revert err t t'. induction n as [|n IH]; intros err t t'; [done|]. simpl.
  destruct (TypeOf h err) as [k|]; simpl; [|done].
  destruct (AssignableTo k (elem t)); [done|].
  assert (Hhook : forall l t1 t2,
            range_first (errors_As_with (as_ n h)) l t1 = Some (false, t2) ->
            t2 = t1).
  { intros l t1 t2. apply range_first_unchanged. intros x t3 t4 _.
    unfold errors_As_with. destruct (is_nil x); [by intros [= <-]|]. apply IH. }
  destruct err as [|a| |]; [by intros [= <-]| |by intros [= <-]|
                            by rewrite ?As_with_nil].
  destruct (h !! a) as [[s|msg err|msg errs|code|p]|]; simpl;
    try by intros [= <-].
  - destruct (is_nil err); [by intros [= <-]|]. apply IH.
  - apply range_first_unchanged. intros x t1 t2 _. apply IH.
  - unfold As_with. destruct (deref h (Some a)) as [q|]; simpl; [|done].
    destruct (range_first _ (extends q) t) as [[[] t1]|] eqn:E; simpl; try done.
    apply Hhook in E as ->.
    destruct (is_nil (base p)); [by intros [= <-]|]. apply IH.
Qed.

Lemma errors_As_total (h : heap) (err : error) (t : holder) :
  wf h -> valid_inb (length h) err = true -> is_Some (errors_As h err t).
Proof.
  intros Hwf Hv. pose proof (valid_inb_rank _ _ Hv) as Hh.
  unfold errors_As, errors_As_with.
  destruct (is_nil err) eqn:E; [done|].
  apply as_total; [done|done|by apply (valid_inb_live (length h))| |done].
  unfold fuel. lia.
Qed.

Lemma errors_As_unchanged (h : heap) (err : error) (t t' : holder) :
  errors_As h err t = Some (false, t') -> t' = t.
Proof.
  unfold errors_As, errors_As_with. destruct (is_nil err); [by intros [= <-]|].
  apply as_unchanged.
Qed.

(** An error whose own dynamic type fits the target is stored itself. *)
Lemma errors_As_direct (h : heap) (err : error) (t : holder) (k : kind) :
  TypeOf h err = Some k -> AssignableTo k (elem t) = true ->
  errors_As h err t = Some (true, Set_ t err).
Proof.
  intros Hk Hassign. unfold errors_As, errors_As_with, fuel.
  destruct err as [|a| |]; [done| | |]; simpl in *.
  - destruct (h !! a) as [o|]; simpl in *; [|done].
    injection Hk as <-. by rewrite Hassign.
  - injection Hk as <-. by rewrite Hassign.
  - injection Hk as <-. by rewrite Hassign.
Qed.

Lemma range_first_spec (f : error -> holder -> option (bool * holder))
    (l : list error) (t t' : holder) (b : bool) :
  (forall x t1 t2, x ∈ l -> f x t1 = Some (false, t2) -> t2 = t1) ->
  range_first f l t = Some (b, t') ->
  (b = true <-> Exists (fun x => exists t'', f x t = Some (true, t'')) l).
Proof.
  induction l as [|x l IH]; simpl; intros Hf.
  - intros [= <- <-]. split; [done|]. by intros ?%Exists_nil.
  - destruct (f x t) as [[[] t1]|] eqn:E; simpl; [| |done].
    + intros [= <- <-]. split; [|done]. intros _. left. eauto.
    + rewrite (Hf x t t1) by (done || left). intros H.
      rewrite IH; [|intros y t2 t3 Hy; apply Hf; by right|done].
      rewrite Exists_cons. split; [by right|].
      intros [[t2 ?]|?]; [congruence|done].
Qed.

(** ** The extraction hook *)

(** C6 as amended: [As(target)] goes through the extends list of [p] in
    order and always returns; it returns true exactly when [errors.As]
    succeeds on some entry, and then the target holds what [errors.As]
    extracted from the first such entry: the entry itself when its own
    dynamic type is assignable to the type of the target, otherwise the
    error found inside that entry; when no entry matches it returns false
    and the target is as it was. *)
Theorem As_spec (h : heap) (a : addr) (p : Proxy) (target : holder) :
  wf h -> h !! a = Some (proxy p) ->
  (exists (b : bool) (target' : holder),
     As h (Some a) target = Some (b, target') /\
     (b = true <->
      Exists (fun ext => exists t, errors_As h ext target = Some (true, t))
             (extends p)) /\
     (b = false -> target' = target)) /\
  (forall l1 ext l2 target',
     extends p = l1 ++ ext :: l2 ->
     Forall (fun x => exists t, errors_As h x target = Some (false, t)) l1 ->
     errors_As h ext target = Some (true, target') ->
     As h (Some a) target = Some (true, target')) /\
  (forall l1 ext l2 k,
     extends p = l1 ++ ext :: l2 ->
     Forall (fun x => exists t, errors_As h x target = Some (false, t)) l1 ->
     TypeOf h ext = Some k -> AssignableTo k (elem target) = true ->
     As h (Some a) target = Some (true, Set_ target ext)).
Proof.
  intros Hwf Ha. pose proof (lookup_lt h a _ Ha) as Hlt.
  assert (Hhit : forall l1 ext l2 target',
            extends p = l1 ++ ext :: l2 ->
            Forall (fun x => exists t, errors_As h x target = Some (false, t)) l1 ->
            errors_As h ext target = Some (true, target') ->
            As h (Some a) target = Some (true, target')).
  { intros l1 ext l2 target' Hext Hmiss Hfirst. unfold As, As_with.
    rewrite (deref_lookup h a p Ha). cbn [mbind option_bind]. rewrite Hext.
    apply range_first_hit; [|done].
    eapply Forall_impl; [exact Hmiss|]. simpl. intros x [t Hx].
    by rewrite Hx, (errors_As_unchanged h x target t Hx). }
  split_and!.
  - unfold As, As_with. rewrite (deref_lookup h a p Ha). simpl.
    destruct (range_first_total (errors_As h) (extends p) target)
      as [[b target'] Hr].
    { intros x t Hx. apply errors_As_total; [done|].
      apply (wf_lookup_valid h a (proxy p)); [done..|]. by do 2 right. }
    exists b, target'. split_and!; [done| |].
    + apply (range_first_spec _ _ _ target'); [|done].
      intros x t1 t2 _. apply errors_As_unchanged.
    + intros ->. revert Hr. apply range_first_unchanged.
      intros x t1 t2 _. apply errors_As_unchanged.
  - exact Hhit.
  - intros l1 ext l2 k Hext Hmiss Hk Hassign.
    apply (Hhit l1 ext l2); [done..|]. by apply (errors_As_direct h ext target k).
Qed.

Lemma As_spec_witness :
  wf sample /\
  As sample (Some 4) (mkHolder (Concrete KcustomError) enil)
  = Some (true, Set_ (mkHolder (Concrete KcustomError) enil) (ref 1)).
Proof.
  split; [reflexivity|].
  refine (proj2 (proj2 (As_spec sample 4
            {| base := ref 2; cause := enil; extends := [ref 0; ref 1] |}
            (mkHolder (Concrete KcustomError) enil) _ _))
          [ref 0] (ref 1) [] KcustomError _ _ _ _);
    try reflexivity.
  repeat constructor. by eexists.
Defined.

(** C6 as stated fails when the first matching entry matches through its
    own chain: [r = q.WithCause(c)] has the entries [q, ErrNotFound,
    custom]; [errors.As] succeeds on [q], the first entry, because [q]
    extends [custom], and what the hook writes into a [*customError] target
    is [custom], not the entry [q]. *)
Lemma As_counterexample :
  deref sample (Some 6)
  = Some {| base := ref 2; cause := ref 5; extends := [ref 4; ref 0; ref 1] |} /\
  (exists t, errors_As sample (ref 4) (mkHolder (Concrete KcustomError) enil)
             = Some (true, t)) /\
  exists t, As sample (Some 6) (mkHolder (Concrete KcustomError) enil)
            = Some (true, t) /\
            contents t = ref 1 /\ contents t <> ref 4.
Proof.
  split; [reflexivity|]. split; [by eexists|].
  eexists. split; [reflexivity|]. by split.
Qed.

(** ** Messages and formatting *)

Lemma Error_mono (n m : nat) (h : heap) (err : error) (s : string) :
  n <= m -> Error_ n h err = Some s -> Error_ m h err = Some s.
Proof.
  revert m err. induction n as [|n IH]; intros m err Hnm; [done|].
  destruct m as [|m]; [lia|]. simpl.
  destruct err as [|a| |]; [done| |done|done].
  destruct (h !! a) as [[]|]; simpl; try done.
  unfold Error_with. destruct (deref h (Some a)) as [q|]; simpl; [|done].
  destruct (is_nil (base q)); simpl; [done|]. apply IH. lia.
Qed.

Lemma Error_total (h : heap) (n : nat) (err : error) :
  wf h -> is_nil err = false -> live err = true ->
  rank err < n -> rank err <= length h ->
  is_Some (Error_ n h err).
Proof.
  intros Hwf. revert err.
  induction n as [|n IH]; intros err Hnil Hlive Hn Hh; [lia|].
  destruct err as [|a| |]; [done| |done|done]. simpl in *.
  destruct (lookup_lt_is_Some_2 h a ltac:(lia)) as [o Ho]. rewrite Ho. simpl.
  destruct o as [s|msg err|msg errs|code|p]; try done.
  unfold Error_with, deref. simpl. rewrite Ho. simpl.
  destruct (is_nil (base p)) eqn:E; simpl; [done|].
  pose proof (wf_lookup h a (proxy p) (base p) Hwf Ho ltac:(left)).
  apply IH; [done|by apply (wf_lookup_live h a (proxy p)); [..|left]|lia..].
Qed.

Lemma Error_fuel_stable (h : heap) (n : nat) (err : error) :
  wf h -> is_nil err = false -> rank err < n -> rank err <= length h ->
  Error_ n h err = Error_of h err.
Proof.
  intros Hwf Hnil Hn Hh. unfold Error_of.
  destruct (live err) eqn:Hlive.
  2:{ destruct err; try done. by destruct n as [|n]; [lia|]. }
  destruct (Error_total h n err Hwf Hnil Hlive Hn Hh) as [s Hs].
  destruct (Nat.le_ge_cases n (fuel h)).
  - rewrite Hs. symmetry. by apply (Error_mono n).
  - destruct (Error_total h (fuel h) err Hwf Hnil Hlive) as [s' Hs'];
      [unfold fuel; lia|done|].
    rewrite Hs'. by apply (Error_mono (fuel h)).
Qed.

(** The [Error] method of a proxy is what dynamic dispatch calls. *)
Lemma Error_of_proxy (h : heap) (a : addr) (p : Proxy) :
  wf h -> h !! a = Some (proxy p) -> Error_of h (ref a) = Error h (Some a).
Proof.
  intros Hwf Ha. pose proof (lookup_lt h a _ Ha) as Hlt.
  unfold Error_of, fuel, Error. simpl. rewrite Ha. simpl.
  unfold Error_with. rewrite (deref_lookup h a p Ha). simpl.
  destruct (is_nil (base p)) eqn:E; simpl; [done|].
  pose proof (wf_lookup h a (proxy p) (base p) Hwf Ha ltac:(left)).
  apply Error_fuel_stable; [done..|lia|lia].
Qed.

Lemma Error_proxy_total (h : heap) (a : addr) (p : Proxy) :
  wf h -> h !! a = Some (proxy p) -> is_Some (Error h (Some a)).
Proof.
  intros Hwf Ha. rewrite <- (Error_of_proxy h a p Hwf Ha).
  pose proof (lookup_lt h a _ Ha) as Hlt.
  apply Error_total; [done..| |]; unfold fuel; simpl; lia.
Qed.


(** [fmt] prints an error operand of a plain [%s] as its [Error()]. *)
Lemma verb_s_Error (Quote : string -> string) (h : heap) (n : nat) (arg : error) :
  wf h -> is_nil arg = false -> valid_inb (length h) arg = true ->
  verb_s_with (fun a => Format_ Quote (S n) h (Some a)) h arg = Error_of h arg.
Proof.
  intros Hwf Hnil Hv. pose proof (valid_inb_rank _ _ Hv) as Hh.
  destruct arg as [|a| |]; [done| |done|done]. simpl in Hh.
  destruct (lookup_lt_is_Some_2 h a ltac:(lia)) as [o Ho].
  unfold verb_s_with. rewrite Ho. cbn [mbind option_bind].
  destruct o as [s|msg err|msg errs|code|p]; try done.
  rewrite (Error_of_proxy h a p Hwf Ho).
  cbn [Format_]. unfold Format_with. cbn [Z.eqb rune_s rune_v Pos.eqb].
  destruct (Error h (Some a)) as [msg|]; [|done]. done.
Qed.

(** C8: [Format] of a proxy [p] with message [msg] (its [Error()]):
    under [%s], and under [%v] without the [+] flag, it writes exactly
    [msg]; under [%+v] with a cause it writes [msg], then [ (cause: ], the
    cause's [Error()] and [)], where the cause's [Error()] is its own
    message only (for a cause that is a proxy, the [Error()] of that proxy,
    whatever cause it has itself); under [%+v] without a cause it writes
    just [msg]; under [%q] it writes the quoted [msg]; under any other verb
    it writes nothing and returns. *)
Theorem Format_spec (Quote : string -> string) (h : heap) (a : addr)
    (p : Proxy) (s : State) (verb : rune) :
  wf h -> h !! a = Some (proxy p) ->
  exists msg : string,
    Error h (Some a) = Some msg /\
    (verb = rune_s \/ (verb = rune_v /\ Flag s rune_plus = false) ->
     Format Quote h (Some a) s verb = Some (State_Write s msg)) /\
    (verb = rune_v -> Flag s rune_plus = true -> cause p <> enil ->
     exists c : string,
       Error_of h (cause p) = Some c /\
       (forall b q, cause p = ref b -> h !! b = Some (proxy q) ->
          Error h (Some b) = Some c) /\
       Format Quote h (Some a) s verb
       = Some (State_Write s (msg +:+ " (cause: " +:+ c +:+ ")"))) /\
    (verb = rune_v -> Flag s rune_plus = true -> cause p = enil ->
     Format Quote h (Some a) s verb = Some (State_Write s msg)) /\
    (verb = rune_q ->
     Format Quote h (Some a) s verb = Some (State_Write s (Quote msg))) /\
    (verb <> rune_v -> verb <> rune_s -> verb <> rune_q ->
     Format Quote h (Some a) s verb = Some s).
Proof.
  intros Hwf Ha. pose proof (lookup_lt h a _ Ha) as Hlt.
  destruct (Error_proxy_total h a p Hwf Ha) as [msg Hmsg].
  exists msg. split; [done|].
  assert (Hstep : Format Quote h (Some a) s verb
                  = Format_with Quote
                      (verb_s_with
                         (fun b => Format_ Quote (length h) h (Some b)) h)
                      h (Some a) s verb) by done.
  rewrite Hstep. unfold Format_with. rewrite Hmsg, (deref_lookup h a p Ha).
  cbn [mbind option_bind].
  split_and!.
  - intros [->|[-> ->]]; done.
  - intros -> -> Hc. pose proof (proj1 (is_nil_false _) Hc) as Hn.
    rewrite Hn. cbn [Z.eqb rune_v Pos.eqb negb].
    pose proof (wf_lookup_valid h a (proxy p) (cause p) Hwf Ha
                  ltac:(right; left)) as Hvalid.
    pose proof (valid_inb_rank _ _ Hvalid) as Hrank.
    destruct (Error_total h (fuel h) (cause p) Hwf Hn (valid_inb_live _ _ Hvalid))
      as [c Hc']; [unfold fuel; lia|lia|].
    exists c. split_and!; [done| |].
    + intros b q Hb Hq. rewrite <- (Error_of_proxy h b q Hwf Hq), <- Hb. done.
    + destruct (length h) as [|n] eqn:El; [lia|].
      rewrite (verb_s_Error Quote h n (cause p) Hwf Hn) by (by rewrite El).
      unfold Error_of. by rewrite Hc'.
  - intros -> -> ->. done.
  - intros ->. done.
  - intros Hv Hs Hq.
    by rewrite (proj2 (Z.eqb_neq _ _) Hv), (proj2 (Z.eqb_neq _ _) Hs),
      (proj2 (Z.eqb_neq _ _) Hq).
Qed.

Lemma Format_spec_witness :
  wf sample /\
  exists c : string,
    Error_of sample (ref 5) = Some c /\
    (forall b q, ref 5 = ref b -> sample !! b = Some (proxy q) ->
       Error sample (Some b) = Some c) /\
    Format (fun x => x) sample (Some 6) (mkState EmptyString [rune_plus]) rune_v
    = Some (State_Write (mkState EmptyString [rune_plus])
              ("user not found" +:+ " (cause: " +:+ c +:+ ")")).
Proof.
  split; [reflexivity|].
  destruct (Format_spec (fun x => x) sample 6
              {| base := ref 2; cause := ref 5;
                 extends := [ref 4; ref 0; ref 1] |}
              (mkState EmptyString [rune_plus]) rune_v eq_refl eq_refl)
    as (msg & Hmsg & _ & H & _).
  injection Hmsg as <-. apply H; [reflexivity | reflexivity | discriminate].
Defined.

(** ** The tests of proxy_test.go and the scenarios of the README *)

Example TestProxy_WithCause__preserves_identity :
  fst <$> (outer ← New "some outer error";
           cause ← errors_New "some cause";
           result ← WithCause outer cause;
           read (fun h => errors_Is h (iface result) (iface outer))) []
  = Some true.
Proof. reflexivity. Qed.

Example TestProxy_Extends__ignores_nil :
  fst <$> (base ← New "some base error";
           ext ← errors_New "some extension";
           result ← Extends base [enil; ext; enil];
           read (fun h => errors_Is h (iface result) ext)) []
  = Some true.
Proof. reflexivity. Qed.

Example TestProxy_Is__not_matches_non_extended :
  fst <$> (base ← New "some base error";
           other ← errors_New "some other error";
           read (fun h => Is h base other)) []
  = Some false.
Proof. reflexivity. Qed.

Example TestProxy_Is__nested_extends :
  fst <$> (err1 ← errors_New "some first error";
           err2 ← errors_New "some second error";
           b0 ← New "some base error";
           b1 ← Extends b0 [err1];
           base ← Extends b1 [err2];
           read (fun h => b1 ← errors_Is h (iface base) err1;
                          b2 ← errors_Is h (iface base) err2;
                          Some (b1, b2))) []
  = Some (true, true).
Proof. reflexivity. Qed.

Example TestProxy_As :
  fst <$> (customErr ← alloc (customError 8234);
           b0 ← New "some base error";
           base ← Extends b0 [ref customErr];
           read (fun h => errors_As h (iface base)
                            (mkHolder (Concrete KcustomError) enil))) []
  = Some (true, mkHolder (Concrete KcustomError) (ref 0)).
Proof. reflexivity. Qed.

Example TestProxy_As__non_matching_type :
  fst <$> (base ← New "some base error";
           read (fun h => errors_As h (iface base)
                            (mkHolder (Concrete KcustomError) enil))) []
  = Some (false, mkHolder (Concrete KcustomError) enil).
Proof. reflexivity. Qed.

Example TestProxy_Error__nil_base :
  fst <$> (proxy' ← alloc (proxy {| base := enil; cause := enil; extends := [] |});
           read (fun h => Error h (Some proxy'))) []
  = Some EmptyString.
Proof. reflexivity. Qed.

Example TestProxy_Format__plus_v_nested_cause (Quote : string -> string) :
  fst <$> (innerCause ← errors_New "some inner cause";
           oc ← New "some outer cause";
           outerCause ← WithCause oc innerCause;
           m ← New "some main error";
           err ← WithCause m (iface outerCause);
           read (fun h => Sprintf Quote h [rune_plus] rune_v err)) []
  = Some "some main error (cause: some outer cause)"%string.
Proof. reflexivity. Qed.

Example TestProxy_Format (Quote : string -> string) :
  fst <$> (err ← New "some error";
           read (fun h => s ← Sprintf Quote h [] rune_s err;
                          v ← Sprintf Quote h [] rune_v err;
                          pv ← Sprintf Quote h [rune_plus] rune_v err;
                          q ← Sprintf Quote h [] rune_q err;
                          d ← Sprintf Quote h [] 100%Z err;
                          Some [s; v; pv; q; d])) []
  = Some ["some error"; "some error"; "some error"; Quote "some error";
          EmptyString]%string.
Proof. reflexivity. Qed.

Example README_causer :
  fst <$> (ErrUserNotFound ← New "user not found";
           cause ← errors_New "no rows";
           err ← WithCause ErrUserNotFound cause;
           read (fun h =>
                   '(ok, causer) ← errors_As h (iface err)
                      (mkHolder (Interface (fun k => kind_eqb k KProxy)) enil);
                   rootCause ← Cause h (match contents causer with
                                        | ref a => Some a
                                        | _ => None
                                        end);
                   Some (ok, contents causer, rootCause, cause))) []
  = Some (true, ref 3, ref 2, ref 2).
Proof. reflexivity. Qed.

(** ** Every operation keeps the heap well formed *)

Lemma wf_New (h h' : heap) (text : string) (e : ProxyPtr) :
  wf h -> New text h = Some (e, h') -> wf h'.
Proof.
  intros Hwf [= <- <-]. apply wf_alloc; [by apply wf_alloc|].
  unfold object_ok. simpl. rewrite length_app. simpl.
  rewrite !andb_true_r. apply Nat.ltb_lt. lia.
Qed.

Lemma wf_Wrap (h h' : heap) (err : error) (e : ProxyPtr) :
  wf h -> valid_inb (length h) err = true -> Wrap err h = Some (e, h') -> wf h'.
Proof.
  intros Hwf Hv. unfold Wrap. destruct (is_nil err); [by intros [= <- <-]|].
  intros [= <- <-]. apply wf_alloc; [done|].
  unfold object_ok. simpl. by rewrite Hv.
Qed.

Lemma wf_WithCause (h h' : heap) (e e' : ProxyPtr) (c : error) :
  wf h -> valid_inb (length h) c = true ->
  WithCause e c h = Some (e', h') -> wf h'.
Proof.
  intros Hwf Hv. unfold WithCause. destruct (is_nil c); [by intros [= <- <-]|].
  unfold mbind, M_bind, load.
  destruct (deref h e) as [p|] eqn:E; simpl; [|done].
  apply deref_inv in E as (a & -> & Ha). intros [= <- <-].
  apply wf_alloc; [done|].
  pose proof (refs_valid h a _ Hwf Ha) as H. unfold object_ok. simpl in *.
  apply andb_true_iff in H as [-> H]. apply andb_true_iff in H as [_ ->].
  rewrite Hv, andb_true_r. simpl. rewrite andb_true_r.
  apply Nat.ltb_lt. by apply lookup_lt in Ha.
Qed.

Lemma wf_Extends_call (h h' : heap) (e e' : ProxyPtr) (errs : list error) :
  wf h -> forallb (valid_inb (length h)) errs = true ->
  Extends e errs h = Some (e', h') -> wf h'.
Proof.
  intros Hwf Hv. unfold Extends. rewrite nonNilErrs_filter. simpl.
  destruct (List.filter _ errs) as [|x l] eqn:El; [by intros [= <- <-]|].
  simpl. unfold mbind, M_bind, load.
  destruct (deref h e) as [p|] eqn:E; simpl; [|done].
  apply deref_inv in E as (a & -> & Ha). intros [= <- <-].
  apply (wf_Extends h a p (x :: l)); [done..|]. rewrite <- El.
  apply forallb_forall. intros y [Hy _]%filter_In.
  rewrite forallb_forall in Hv. by apply Hv.
Qed.

(** * Further properties of the package *)

(** ** Walks only read older objects *)

Lemma range_first_ext (f g : error -> holder -> option (bool * holder))
    (l : list error) (t : holder) :
  (forall x t', x ∈ l -> f x t' = g x t') -> range_first f l t = range_first g l t.
Proof.
  revert t. induction l as [|x l IH]; simpl; intros t Hfg; [done|].
  rewrite (Hfg x t) by left. destruct (g x t) as [[[] t1]|]; simpl; try done.
  apply IH. intros y t' Hy. apply Hfg. by right.
Qed.

Lemma as_agree (h1 h2 : heap) (k n : nat) (err : error) (t : holder) :
  wf h1 -> (forall b, b < k -> h1 !! b = h2 !! b) -> rank err <= k ->
  as_ n h1 err t = as_ n h2 err t.
Proof.
  intros Hwf Hag. revert err t. induction n as [|n IH]; intros err t Hk; [done|].
  simpl. destruct err as [|a| |]; [done| |done|done]. simpl in *.
  rewrite <- (Hag a) by lia.
  destruct (h1 !! a) as [o|] eqn:Ho; simpl; [|done].
  destruct (AssignableTo (kind_of o) (elem t)); [done|].
  assert (Hsub : forall x, x ∈ refs o -> forall t', as_ n h1 x t' = as_ n h2 x t').
  { intros x Hx t'. pose proof (wf_lookup h1 a o x Hwf Ho Hx). apply IH. lia. }
  destruct o as [s|msg err|msg errs|code|p]; simpl in Hsub; try done.
  - destruct (is_nil err); [done|]. apply Hsub. left.
  - apply range_first_ext. intros x t' Hx. by apply Hsub.
  - assert (As_with (errors_As_with (as_ n h1)) h1 (Some a) t
            = As_with (errors_As_with (as_ n h2)) h2 (Some a) t) as ->.
    { unfold As_with, deref. simpl. rewrite <- (Hag a) by lia. rewrite Ho. simpl.
      apply range_first_ext. intros x t' Hx.
      unfold errors_As_with. destruct (is_nil x); [done|].
      apply Hsub. by do 2 right. }
    destruct (As_with _ h2 (Some a) t) as [[[] t1]|]; simpl; try done.
    destruct (is_nil (base p)); [done|]. apply Hsub. left.
Qed.

Lemma Error_agree (h1 h2 : heap) (k n : nat) (err : error) :
  wf h1 -> (forall b, b < k -> h1 !! b = h2 !! b) -> rank err <= k ->
  Error_ n h1 err = Error_ n h2 err.
Proof.
  intros Hwf Hag. revert err. induction n as [|n IH]; intros err Hk; [done|].
  simpl. destruct err as [|a| |]; [done| |done|done]. simpl in *.
  rewrite <- (Hag a) by lia.
  destruct (h1 !! a) as [o|] eqn:Ho; simpl; [|done].
  destruct o as [s|msg err|msg errs|code|p]; try done.
  unfold Error_with, deref. simpl. rewrite <- (Hag a) by lia. rewrite Ho. simpl.
  destruct (is_nil (base p)); simpl; [done|].
  pose proof (wf_lookup h1 a (proxy p) (base p) Hwf Ho ltac:(left)).
  apply IH. lia.
Qed.

Lemma as_fuel_stable (h : heap) (n : nat) (err : error) (t : holder) :
  wf h -> rank err < n -> rank err <= length h ->
  errors_As_with (as_ n h) err t = errors_As h err t.
Proof.
  intros Hwf Hn Hh. unfold errors_As, errors_As_with.
  destruct (is_nil err) eqn:E; [done|].
  destruct (live err) eqn:Hlive.
  2:{ destruct err; try done. by destruct n as [|n]; [lia|]. }
  destruct (as_total h n err t Hwf E Hlive Hn Hh) as [r Hr].
  destruct (Nat.le_ge_cases n (fuel h)).
  - rewrite Hr. symmetry. by apply (as_mono n).
  - destruct (as_total h (fuel h) err t Hwf E Hlive) as [r' Hr'];
      [unfold fuel; lia|done|].
    rewrite Hr'. by apply (as_mono (fuel h)).
Qed.

(** ** Allocation changes no answer about an existing error *)

Lemma agree_app (h l : heap) (b : addr) : b < length h -> h !! b = (h ++ l) !! b.
Proof. intros Hb. by rewrite lookup_app_l. Qed.

Lemma errors_Is_frame (h l : heap) (err target : error) :
  wf h -> rank err <= length h ->
  errors_Is (h ++ l) err target = errors_Is h err target.
Proof.
  intros Hwf Hh. rewrite <- (is_fuel_stable h (fuel (h ++ l)) err target Hwf);
    [|unfold fuel; rewrite length_app; lia|done].
  unfold errors_Is, errors_Is_with.
  destruct (is_nil err || is_nil target); [done|]. symmetry.
  apply (is_agree h (h ++ l) (length h)); [done| |done].
  intros b Hb. by apply agree_app.
Qed.

Lemma errors_As_frame (h l : heap) (err : error) (t : holder) :
  wf h -> rank err <= length h ->
  errors_As (h ++ l) err t = errors_As h err t.
Proof.
  intros Hwf Hh. rewrite <- (as_fuel_stable h (fuel (h ++ l)) err t Hwf);
    [|unfold fuel; rewrite length_app; lia|done].
  unfold errors_As, errors_As_with. destruct (is_nil err); [done|]. symmetry.
  apply (as_agree h (h ++ l) (length h)); [done| |done].
  intros b Hb. by apply agree_app.
Qed.

Lemma Error_of_frame (h l : heap) (err : error) :
  wf h -> is_nil err = false -> rank err <= length h ->
  Error_of (h ++ l) err = Error_of h err.
Proof.
  intros Hwf Hnil Hh.
  rewrite <- (Error_fuel_stable h (fuel (h ++ l)) err Hwf Hnil);
    [|unfold fuel; rewrite length_app; lia|done].
  unfold Error_of. symmetry.
  apply (Error_agree h (h ++ l) (length h)); [done| |done].
  intros b Hb. by apply agree_app.
Qed.

Lemma deref_frame (h l : heap) (a : addr) :
  a < length h -> deref (h ++ l) (Some a) = deref h (Some a).
Proof. intros Ha. unfold deref. simpl. by rewrite <- agree_app. Qed.

(** ** [errors.Is], [errors.As] and [Error] at a proxy, without fuel *)

Lemma errors_Is_proxy (h : heap) (a : addr) (p : Proxy) (target : error) :
  wf h -> h !! a = Some (proxy p) -> is_nil target = false ->
  errors_Is h (ref a) target
  = if comparable target && error_eqb (ref a) target then Some true
    else
      b ← Is h (Some a) target;
      if b : bool then Some true
      else if is_nil (base p) then Some false
      else errors_Is h (base p) target.
Proof.
  intros Hwf Ha Hnil. pose proof (lookup_lt h a _ Ha) as Hlt.
  assert (Hrank : forall x, x ∈ refs (proxy p) -> rank x <= a)
    by (intros x; apply (wf_lookup h a _ x Hwf Ha)).
  unfold errors_Is at 1, errors_Is_with at 1, fuel. cbn [is_nil orb]. rewrite Hnil.
  rewrite (is_S_proxy _ _ _ _ _ _ Ha).
  destruct (comparable target && error_eqb (ref a) target); [done|].
  assert (Is_with (errors_Is_with (is_ (length h) h)) h (Some a) target
          = Is h (Some a) target) as ->.
  { unfold Is, Is_with. rewrite Hnil, (deref_lookup h a p Ha). simpl.
    apply range_any_ext. intros x Hx.
    specialize (Hrank x ltac:(by do 2 right)).
    apply is_fuel_stable; [done|lia..]. }
  destruct (Is h (Some a) target) as [[]|]; simpl; try done.
  destruct (is_nil (base p)) eqn:E; [done|].
  specialize (Hrank (base p) ltac:(left)).
  rewrite <- (is_fuel_stable h (length h) (base p) target Hwf) by lia.
  unfold errors_Is_with. by rewrite E, Hnil.
Qed.

Lemma errors_As_proxy (h : heap) (a : addr) (p : Proxy) (t : holder) :
  wf h -> h !! a = Some (proxy p) ->
  errors_As h (ref a) t
  = if AssignableTo KProxy (elem t) then Some (true, Set_ t (ref a))
    else
      '(b, t') ← As h (Some a) t;
      if b : bool then Some (true, t')
      else if is_nil (base p) then Some (false, t')
      else errors_As h (base p) t'.
Proof.
  intros Hwf Ha. pose proof (lookup_lt h a _ Ha) as Hlt.
  assert (Hrank : forall x, x ∈ refs (proxy p) -> rank x <= a)
    by (intros x; apply (wf_lookup h a _ x Hwf Ha)).
  unfold errors_As at 1, errors_As_with at 1, fuel. cbn [is_nil as_ TypeOf].
  rewrite Ha. cbn [mbind option_bind kind_of].
  destruct (AssignableTo KProxy (elem t)); [done|].
  assert (As_with (errors_As_with (as_ (length h) h)) h (Some a) t
          = As h (Some a) t) as ->.
  { unfold As, As_with. rewrite (deref_lookup h a p Ha). simpl.
    apply range_first_ext. intros x t' Hx.
    specialize (Hrank x ltac:(by do 2 right)).
    apply as_fuel_stable; [done|lia..]. }
  destruct (As h (Some a) t) as [[[] t1]|]; simpl; try done.
  destruct (is_nil (base p)) eqn:E; [done|].
  specialize (Hrank (base p) ltac:(left)).
  rewrite <- (as_fuel_stable h (length h) (base p) t1 Hwf) by lia.
  unfold errors_As_with. by rewrite E.
Qed.

(** ** Calls only allocate *)

Lemma New_grows (h h' : heap) (text : string) (e : ProxyPtr) :
  New text h = Some (e, h') -> exists l, h' = h ++ l.
Proof. intros [= <- <-]. eexists. by rewrite <- app_assoc. Qed.

Lemma Wrap_grows (h h' : heap) (err : error) (e : ProxyPtr) :
  Wrap err h = Some (e, h') -> exists l, h' = h ++ l.
Proof.
  unfold Wrap. destruct (is_nil err); intros [= <- <-].
  - exists []. by rewrite app_nil_r.
  - by eexists.
Qed.

Lemma WithCause_grows (h h' : heap) (e e' : ProxyPtr) (c : error) :
  WithCause e c h = Some (e', h') -> exists l, h' = h ++ l.
Proof.
  unfold WithCause. destruct (is_nil c).
  - intros [= <- <-]. exists []. by rewrite app_nil_r.
  - unfold mbind, M_bind, load. destruct (deref h e); simpl; [|done].
    intros [= <- <-]. by eexists.
Qed.

Lemma Extends_grows (h h' : heap) (e e' : ProxyPtr) (errs : list error) :
  Extends e errs h = Some (e', h') -> exists l, h' = h ++ l.
Proof.
  unfold Extends. destruct (Nat.eqb _ 0).
  - intros [= <- <-]. exists []. by rewrite app_nil_r.
  - unfold mbind, M_bind, load. destruct (deref h e); simpl; [|done].
    intros [= <- <-]. by eexists.
Qed.

(** X1: proxies are immutable.  Whatever [New], [Wrap], [WithCause] or
    [Extends] call is made on a well-formed heap, every object stays as it
    was, and for every error [x] that existed before the call [errors.Is],
    [errors.As] and [Error()] answer after the call as they did before. *)
Theorem calls_change_no_answer (h h' : heap) (e e' : ProxyPtr) (text : string)
    (err c : error) (errs : list error)
    (x target : error) (t : holder) :
  wf h ->
  New text h = Some (e', h') \/ Wrap err h = Some (e', h') \/
  WithCause e c h = Some (e', h') \/ Extends e errs h = Some (e', h') ->
  valid_inb (length h) x = true ->
  (forall b o, h !! b = Some o -> h' !! b = Some o) /\
  errors_Is h' x target = errors_Is h x target /\
  errors_As h' x t = errors_As h x t /\
  (x <> enil -> Error_of h' x = Error_of h x).
Proof.
  intros Hwf Hcall Hx%valid_inb_rank.
  assert (exists l, h' = h ++ l) as [l ->].
  { destruct Hcall as [H|[H|[H|H]]].
    - by apply New_grows in H.
    - by apply Wrap_grows in H.
    - by apply WithCause_grows in H.
    - by apply Extends_grows in H. }
  split_and!.
  - intros b o Hb. by apply lookup_app_l_Some.
  - by apply errors_Is_frame.
  - by apply errors_As_frame.
  - intros Hnil%is_nil_false. by apply Error_of_frame.
Qed.

Lemma calls_change_no_answer_witness :
  wf sample /\
  errors_Is (sample ++ [proxy {| base := ref 2; cause := ref 5;
                                 extends := [ref 4; ref 0; ref 1] |}])
            (ref 4) (ref 0)
  = errors_Is sample (ref 4) (ref 0).
Proof.
  split; [reflexivity|].
  refine (proj1 (proj2 (calls_change_no_answer sample _ (Some 4) (Some 7)
            "t" enil (ref 5) [] (ref 4) (ref 0)
            (mkHolder (Concrete KcustomError) enil) _ _ _)));
    [reflexivity | right; right; left; reflexivity | reflexivity].
Defined.

(** X2: the package cannot build a cycle.  On a well-formed heap, with
    arguments that are errors of the heap, each of [New], [Wrap],
    [WithCause] and [Extends] leaves a well-formed heap; hence [errors.Is]
    and [errors.As] return, without a fault, on every error of the new
    heap. *)
Theorem calls_keep_wf (h h' : heap) (e e' : ProxyPtr) (text : string)
    (err c : error) (errs : list error) :
  wf h ->
  New text h = Some (e', h') \/
  (valid_inb (length h) err = true /\ Wrap err h = Some (e', h')) \/
  (valid_inb (length h) c = true /\ WithCause e c h = Some (e', h')) \/
  (forallb (valid_inb (length h)) errs = true /\
   Extends e errs h = Some (e', h')) ->
  wf h' /\
  forall (x target : error) (t : holder),
    valid_inb (length h') x = true ->
    is_Some (errors_Is h' x target) /\ is_Some (errors_As h' x t).
Proof.
  intros Hwf Hcall.
  assert (Hwf' : wf h').
  { destruct Hcall as [H|[[Hv H]|[[Hv H]|[Hv H]]]].
    - by apply (wf_New h h' text e').
    - by apply (wf_Wrap h h' err e').
    - by apply (wf_WithCause h h' e e' c).
    - by apply (wf_Extends_call h h' e e' errs). }
  split; [done|]. intros x target t Hx. split.
  - by apply errors_Is_total.
  - by apply errors_As_total.
Qed.

Lemma calls_keep_wf_witness :
  wf sample /\
  wf (sample ++ [proxy {| base := ref 2; cause := ref 5;
                          extends := [ref 4; ref 0; ref 1] |}]).
Proof.
  split; [reflexivity|].
  refine (proj1 (calls_keep_wf sample _ (Some 4) (Some 7) "t" enil (ref 5) [] _ _));
    [reflexivity | right; right; left; split; reflexivity].
Defined.

(** ** What a new proxy is *)

(** X3: on any heap, [New(text)] returns a proxy whose [Error()] is [text],
    whose [Cause()] is nil and whose [Is] hook matches nothing; [errors.Is]
    matches it against a target exactly when the target is the new proxy
    itself or the base error that [New] made for it, whatever the text. *)
Theorem New_fresh_sentinel (h : heap) (text : string) (target : error) :
  exists (a : addr) (h' : heap),
    New text h = Some (Some a, h') /\
    h !! a = None /\
    Error h' (Some a) = Some text /\
    Cause h' (Some a) = Some enil /\
    Is h' (Some a) target = Some false /\
    errors_Is h' (ref a) target
    = Some (comparable target
            && (error_eqb (ref a) target || error_eqb (ref (length h)) target)).
Proof.
  set (n := length h).
  set (p0 := {| base := ref n; cause := enil; extends := [] |}).
  set (h' := (h ++ [errorString text]) ++ [proxy p0]).
  assert (Hl0 : h' !! n = Some (errorString text))
    by apply lookup_alloc_old, lookup_alloc_new.
  assert (Hl1 : h' !! S n = Some (proxy p0)).
  { replace (S n) with (length (h ++ [errorString text]))
      by (rewrite length_app; simpl; lia).
    apply lookup_alloc_new. }
  assert (Hlen : length h' = S (S n))
    by (unfold h'; rewrite !length_app; simpl; lia).
  assert (Hhook : forall f t, Is_with f h' (Some (S n)) t = Some false).
  { intros f t. unfold Is_with. rewrite (deref_lookup _ _ _ Hl1).
    by destruct (is_nil t). }
  exists (S n), h'. split_and!.
  - unfold New, errors_New, mbind, M_bind, alloc, mret, M_ret.
    by rewrite length_app, Nat.add_1_r.
  - apply lookup_ge_None_2. lia.
  - unfold Error, Error_with. rewrite (deref_lookup _ _ _ Hl1).
    cbn [mbind option_bind p0 base is_nil negb].
    unfold Error_of, fuel. cbn [Error_]. by rewrite Hl0.
  - unfold Cause. by rewrite (deref_lookup _ _ _ Hl1).
  - apply Hhook.
  - assert (Hbase : forall t c,
              is_ (S (S n)) h' (ref n) t c
              = Some (c && error_eqb (ref n) t)).
    { intros t c. cbn [is_]. destruct (c && error_eqb (ref n) t); [done|].
      by rewrite Hl0. }
    unfold errors_Is, errors_Is_with, fuel. cbn [is_nil orb].
    destruct target as [|b|msgs|]; cbn [is_nil comparable andb]; [done| | |].
    + rewrite (is_S_proxy _ _ _ _ _ _ Hl1), Hhook.
      cbn [mbind option_bind p0 base is_nil andb]. rewrite Hlen, Hbase.
      by destruct (error_eqb (ref (S n)) (ref b)).
    + rewrite (is_S_proxy _ _ _ _ _ _ Hl1), Hhook.
      cbn [mbind option_bind p0 base is_nil andb]. by rewrite Hlen, Hbase.
    + rewrite (is_S_proxy _ _ _ _ _ _ Hl1), Hhook.
      cbn [mbind option_bind p0 base is_nil andb error_eqb].
      by rewrite Hlen, Hbase.
Qed.

Lemma error_eqb_neq (x y : error) : x <> y -> comparable y && error_eqb x y = false.
Proof.
  destruct x as [|a| |], y as [|b| |]; try done. intros Hne. simpl.
  apply Nat.eqb_neq. congruence.
Qed.

(** X4: [Wrap] is transparent.  For a non-nil error [err] of a well-formed
    heap, [Wrap(err)] has the message of [err]; for every target other
    than the new proxy itself [errors.Is] answers on [Wrap(err)] as it does
    on [err]; and for every target type that [*Proxy] is not assignable to
    [errors.As] extracts from [Wrap(err)] what it extracts from [err]. *)
Theorem Wrap_transparent (h : heap) (err target : error) (t : holder) :
  wf h -> err <> enil -> valid_inb (length h) err = true ->
  exists (a : addr) (h' : heap),
    Wrap err h = Some (Some a, h') /\
    Error h' (Some a) = Error_of h err /\
    (target <> ref a -> errors_Is h' (ref a) target = errors_Is h err target) /\
    (AssignableTo KProxy (elem t) = false ->
     errors_As h' (ref a) t = errors_As h err t).
Proof.
  intros Hwf Hne Hv. pose proof (proj1 (is_nil_false err) Hne) as Hnil.
  pose proof (valid_inb_rank _ _ Hv) as Hrank.
  set (p := {| base := err; cause := enil; extends := [] |}).
  assert (Hcall : Wrap err h = Some (Some (length h), h ++ [proxy p])).
  { unfold Wrap. by rewrite Hnil. }
  assert (Hwf' : wf (h ++ [proxy p])) by (by eapply wf_Wrap).
  assert (Hnew : (h ++ [proxy p]) !! length h = Some (proxy p))
    by apply lookup_alloc_new.
  exists (length h), (h ++ [proxy p]). split_and!; [done| | |].
  - unfold Error, Error_with. rewrite (deref_lookup _ _ _ Hnew).
    cbn [mbind option_bind p base]. rewrite Hnil. cbn [negb].
    by apply Error_of_frame.
  - intros Htarget. destruct (is_nil target) eqn:Ht.
    { destruct target; try done. by destruct err. }
    rewrite (errors_Is_proxy _ _ _ _ Hwf' Hnew Ht).
    rewrite error_eqb_neq by congruence.
    unfold Is, Is_with. rewrite Ht, (deref_lookup _ _ _ Hnew).
    cbn [mbind option_bind p extends range_any base]. rewrite Hnil.
    by apply errors_Is_frame.
  - intros Hassign. rewrite (errors_As_proxy _ _ _ _ Hwf' Hnew), Hassign.
    unfold As, As_with. rewrite (deref_lookup _ _ _ Hnew).
    cbn [mbind option_bind p extends range_first base]. rewrite Hnil.
    by apply errors_As_frame.
Qed.

Lemma Wrap_transparent_witness :
  wf sample /\ ref 4 <> enil /\
  exists (a : addr) (h' : heap),
    Wrap (ref 4) sample = Some (Some a, h') /\
    Error h' (Some a) = Error_of sample (ref 4) /\
    (ref 0 <> ref a -> errors_Is h' (ref a) (ref 0) = errors_Is sample (ref 4) (ref 0)) /\
    (AssignableTo KProxy (Concrete KcustomError) = false ->
     errors_As h' (ref a) (mkHolder (Concrete KcustomError) enil)
     = errors_As sample (ref 4) (mkHolder (Concrete KcustomError) enil)).
Proof.
  split; [reflexivity|]. split; [discriminate|].
  apply (Wrap_transparent sample (ref 4) (ref 0)
           (mkHolder (Concrete KcustomError) enil));
    [reflexivity | discriminate | reflexivity].
Defined.

(** ** What attaching a cause keeps *)

(** X5: attaching a cause changes neither the message nor what the error
    matches.  For a proxy [p] of a well-formed heap and a non-nil cause [c]
    of the heap, [p.WithCause(c)] has the [Error()] and [Unwrap()] of [p];
    for every target other than the new proxy itself [errors.Is] answers on
    it exactly as on [p] (so it matches [c] only if [p] already did); and
    for every target type that [*Proxy] is not assignable to [errors.As]
    extracts from it exactly what it extracts from [p]. *)
Theorem WithCause_same_matches (h : heap) (a : addr) (p : Proxy)
    (c target : error) (t : holder) :
  wf h -> h !! a = Some (proxy p) ->
  c <> enil -> valid_inb (length h) c = true ->
  exists (r : addr) (h' : heap),
    WithCause (Some a) c h = Some (Some r, h') /\
    Error h' (Some r) = Error h (Some a) /\
    Unwrap h' (Some r) = Unwrap h (Some a) /\
    (target <> ref r -> errors_Is h' (ref r) target = errors_Is h (ref a) target) /\
    (AssignableTo KProxy (elem t) = false ->
     errors_As h' (ref r) t = errors_As h (ref a) t).
Proof.
  intros Hwf Ha Hc Hv. pose proof (lookup_lt h a _ Ha) as Hlt.
  set (p' := {| base := base p; cause := c; extends := ref a :: extends p |}).
  assert (Hcall : WithCause (Some a) c h = Some (Some (length h), h ++ [proxy p']))
    by (by apply WithCause_eq).
  assert (Hwf' : wf (h ++ [proxy p'])) by (by eapply wf_WithCause).
  assert (Hnew : (h ++ [proxy p']) !! length h = Some (proxy p'))
    by apply lookup_alloc_new.
  assert (Hrank : forall x, x ∈ refs (proxy p) -> rank x <= length h).
  { intros x Hx. pose proof (wf_lookup h a _ x Hwf Ha Hx). lia. }
  exists (length h), (h ++ [proxy p']). split_and!; [done| | | |].
  - unfold Error, Error_with.
    rewrite (deref_lookup _ _ _ Hnew), (deref_lookup _ _ _ Ha).
    cbn [mbind option_bind p' base].
    destruct (is_nil (base p)) eqn:E; [done|]. cbn [negb].
    apply Error_of_frame; [done..|]. apply Hrank. left.
  - unfold Unwrap. by rewrite (deref_lookup _ _ _ Hnew), (deref_lookup _ _ _ Ha).
  - intros Htarget. destruct (is_nil target) eqn:Ht.
    { by destruct target. }
    rewrite (errors_Is_proxy _ _ _ _ Hwf' Hnew Ht).
    rewrite error_eqb_neq by congruence.
    assert (Is (h ++ [proxy p']) (Some (length h)) target
            = b ← errors_Is h (ref a) target;
              if b : bool then Some true else Is h (Some a) target) as ->.
    { unfold Is, Is_with.
      rewrite Ht, (deref_lookup _ _ _ Hnew), (deref_lookup _ _ _ Ha).
      cbn [mbind option_bind p' extends range_any].
      rewrite errors_Is_frame by (done || simpl; lia).
      destruct (errors_Is h (ref a) target) as [[]|]; cbn [mbind option_bind];
        try done.
      apply range_any_ext. intros x Hx. apply errors_Is_frame; [done|].
      apply Hrank. by do 2 right. }
    cbn [p' base].
    assert (Hb : is_nil (base p) = false ->
              errors_Is (h ++ [proxy p']) (base p) target
              = errors_Is h (base p) target).
    { intros _. apply errors_Is_frame; [done|]. apply Hrank. left. }
    rewrite (errors_Is_proxy h a p target Hwf Ha Ht).
    destruct (comparable target && error_eqb (ref a) target); [done|].
    destruct (Is h (Some a) target) as [[]|]; cbn [mbind option_bind]; try done.
    destruct (is_nil (base p)) eqn:E; [done|]. rewrite Hb by done.
    by destruct (errors_Is h (base p) target) as [[]|].
  - intros Hassign.
    rewrite (errors_As_proxy _ _ _ _ Hwf' Hnew), Hassign.
    assert (As (h ++ [proxy p']) (Some (length h)) t
            = '(b, t') ← errors_As h (ref a) t;
              if b : bool then Some (true, t') else As h (Some a) t') as ->.
    { unfold As, As_with.
      rewrite (deref_lookup _ _ _ Hnew), (deref_lookup _ _ _ Ha).
      cbn [mbind option_bind p' extends range_first].
      rewrite errors_As_frame by (done || simpl; lia).
      destruct (errors_As h (ref a) t) as [[[] t1]|]; cbn [mbind option_bind];
        try done.
      apply range_first_ext. intros x t' Hx. apply errors_As_frame; [done|].
      apply Hrank. by do 2 right. }
    cbn [p' base].
    rewrite (errors_As_proxy h a p t Hwf Ha), Hassign.
    destruct (As h (Some a) t) as [[[] t1]|] eqn:EAs; cbn [mbind option_bind];
      try done.
    pose proof EAs as Hun. unfold As, As_with in Hun.
    rewrite (deref_lookup _ _ _ Ha) in Hun. cbn [mbind option_bind] in Hun.
    apply range_first_unchanged in Hun as ->;
      [|intros x t2 t3 _; apply errors_As_unchanged].
    destruct (is_nil (base p)) eqn:E.
    { cbn [mbind option_bind]. rewrite EAs. by cbn [mbind option_bind]. }
    destruct (errors_As h (base p) t) as [[[] t2]|] eqn:Eb;
      cbn [mbind option_bind]; try done.
    pose proof (errors_As_unchanged _ _ _ _ Eb) as ->.
    rewrite EAs. cbn [mbind option_bind].
    rewrite errors_As_frame by (done || apply Hrank; left).
    done.
Qed.

Lemma WithCause_same_matches_witness :
  wf sample /\ ref 5 <> enil /\
  exists (r : addr) (h' : heap),
    WithCause (Some 4) (ref 5) sample = Some (Some r, h') /\
    Error h' (Some r) = Error sample (Some 4) /\
    Unwrap h' (Some r) = Unwrap sample (Some 4) /\
    (ref 5 <> ref r ->
     errors_Is h' (ref r) (ref 5) = errors_Is sample (ref 4) (ref 5)) /\
    (AssignableTo KProxy (Concrete KcustomError) = false ->
     errors_As h' (ref r) (mkHolder (Concrete KcustomError) enil)
     = errors_As sample (ref 4) (mkHolder (Concrete KcustomError) enil)).
Proof.
  split; [reflexivity|]. split; [discriminate|].
  apply (WithCause_same_matches sample 4
           {| base := ref 2; cause := enil; extends := [ref 0; ref 1] |}
           (ref 5) (ref 5) (mkHolder (Concrete KcustomError) enil));
    [reflexivity | reflexivity | discriminate | reflexivity].
Defined.

(** ** What [Extends] adds *)

Lemma range_any_app (f : error -> option bool) (l1 l2 : list error) :
  range_any f (l1 ++ l2)
  = b ← range_any f l1; if b : bool then Some true else range_any f l2.
Proof.
  induction l1 as [|x l1 IH]; simpl; [done|].
  destruct (f x) as [[]|]; simpl; done.
Qed.

Lemma filter_valid (n : nat) (errs : list error) :
  forallb (valid_inb n) errs = true ->
  forall x, x ∈ List.filter (fun err => negb (is_nil err)) errs ->
            valid_inb n x = true.
Proof.
  intros Hv x [Hx _]%list_elem_of_In%filter_In.
  rewrite forallb_forall in Hv. by apply Hv.
Qed.

(** The hook and the walk at the result of [Extends], over the old heap. *)
Lemma Is_Extends (h : heap) (a : addr) (p : Proxy) (l : list error)
    (target : error) :
  wf h -> h !! a = Some (proxy p) -> (forall x, x ∈ l -> rank x <= length h) ->
  let p' := {| base := base p; cause := cause p; extends := extends p ++ l |} in
  Is (h ++ [proxy p']) (Some (length h)) target
  = b ← Is h (Some a) target;
    if b : bool then Some true
    else if is_nil target then Some false
    else range_any (fun e => errors_Is h e target) l.
Proof.
  intros Hwf Ha Hl p'. pose proof (lookup_lt h a _ Ha) as Hlt.
  unfold Is, Is_with.
  rewrite (deref_lookup _ _ p' (lookup_alloc_new h (proxy p'))),
    (deref_lookup _ _ _ Ha).
  destruct (is_nil target); [done|].
  cbn [mbind option_bind p' extends]. rewrite range_any_app.
  rewrite (range_any_ext _ (fun e => errors_Is h e target) (extends p)).
  2:{ intros x Hx. apply errors_Is_frame; [done|].
      pose proof (wf_lookup h a _ x Hwf Ha ltac:(by do 2 right)). lia. }
  destruct (range_any _ (extends p)) as [[]|]; cbn [mbind option_bind]; try done.
  apply range_any_ext. intros x Hx. apply errors_Is_frame; [done|]. by apply Hl.
Qed.

Lemma errors_Is_Extends (h : heap) (a : addr) (p : Proxy) (l : list error)
    (target : error) :
  wf h -> h !! a = Some (proxy p) ->
  (forall x, x ∈ l -> valid_inb (length h) x = true) ->
  is_nil target = false -> target <> ref (length h) ->
  let p' := {| base := base p; cause := cause p; extends := extends p ++ l |} in
  errors_Is (h ++ [proxy p']) (ref (length h)) target
  = b1 ← Is h (Some a) target;
    if b1 : bool then Some true
    else
      b2 ← range_any (fun e => errors_Is h e target) l;
      if b2 : bool then Some true
      else if is_nil (base p) then Some false
      else errors_Is h (base p) target.
Proof.
  intros Hwf Ha Hl Ht Hne p'. subst p'. pose proof (lookup_lt h a _ Ha) as Hlt.
  assert (Hwf' : wf (h ++ [proxy {| base := base p; cause := cause p;
                                    extends := extends p ++ l |}])).
  { apply (wf_Extends h a p l); [done..|]. apply forallb_forall.
    intros x Hx%list_elem_of_In. by apply Hl. }
  rewrite (errors_Is_proxy _ _ _ _ Hwf' (lookup_alloc_new h _) Ht).
  rewrite error_eqb_neq by congruence.
  rewrite (Is_Extends h a p l target Hwf Ha)
    by (intros x Hx; by apply valid_inb_rank, Hl).
  rewrite Ht.
  destruct (Is h (Some a) target) as [[]|]; cbn [mbind option_bind]; try done.
  destruct (range_any _ l) as [[]|]; cbn [mbind option_bind]; try done.
  cbn [base]. destruct (is_nil (base p)) eqn:E; [done|].
  apply errors_Is_frame; [done|].
  pose proof (wf_lookup h a _ (base p) Hwf Ha ltac:(left)). lia.
Qed.

(** A walk never reaches an object newer than the one it starts from. *)
Lemma is_below (h : heap) (n : nat) (x : error) (a : addr) (c : bool) :
  wf h -> rank x <= a -> is_ n h x (ref a) c <> Some true.
Proof.
  intros Hwf. revert x c. induction n as [|n IH]; intros x c Hx; [done|].
  simpl. destruct x as [|b| |]; cbn [error_eqb]; rewrite ?andb_false_r;
    [done| |done|by rewrite ?Is_with_nil].
  simpl in Hx. rewrite (proj2 (Nat.eqb_neq b a)) by lia. rewrite andb_false_r.
  destruct (h !! b) as [o|] eqn:Ho; simpl; [|done].
  assert (Hsub : forall y, y ∈ refs o -> forall c', is_ n h y (ref a) c' <> Some true).
  { intros y Hy c'. pose proof (wf_lookup h b o y Hwf Ho Hy). apply IH. lia. }
  assert (Hany : forall (f : error -> option bool) l,
            (forall y, y ∈ l -> f y <> Some true) -> range_any f l <> Some true).
  { intros f l Hf Hr. apply (range_any_spec f l true) in Hr.
    pose proof (proj1 Hr eq_refl) as Hex. apply Exists_exists in Hex.
    destruct Hex as (y & Hy & Hfy). by apply (Hf y). }
  destruct o as [s|msg err|msg errs|code|p]; simpl in Hsub; try done.
  - destruct (is_nil err); [done|]. apply Hsub. left.
  - apply Hany. intros y Hy. by apply Hsub.
  - unfold Is_with, deref. simpl. rewrite Ho. simpl.
    destruct (range_any _ (extends p)) as [[]|] eqn:E; simpl; try done.
    + exfalso. revert E. apply Hany. intros y Hy. unfold errors_Is_with.
      destruct (is_nil y || is_nil (ref a)) eqn:En.
      * simpl in En. rewrite orb_false_r in En. by destruct y.
      * apply Hsub. by do 2 right.
    + destruct (is_nil (base p)); [done|]. apply Hsub. left.
Qed.

Lemma errors_Is_below (h : heap) (x : error) (a : addr) :
  wf h -> rank x <= a -> valid_inb (length h) x = true ->
  errors_Is h x (ref a) = Some false.
Proof.
  intros Hwf Hx Hh. destruct (errors_Is_total h x (ref a) Hwf Hh) as [[] Hb];
    [|done].
  exfalso. revert Hb. unfold errors_Is, errors_Is_with.
  destruct (is_nil x || is_nil (ref a)) eqn:En.
  - simpl in En. rewrite orb_false_r in En. by destruct x.
  - by apply is_below.
Qed.

(** X6: [Extends] adds exactly the new categories.  For a proxy [p] of a
    well-formed heap and arguments of the heap with a non-nil one among
    them, [p.Extends(errs...)] keeps the [Error()], [Unwrap()] and
    [Cause()] of [p]; its [Is] hook returns true for a non-nil target
    exactly when the hook of [p] did or [errors.Is] matches the target on
    one of the non-nil arguments; and, for a target that is neither [p] nor
    the new proxy, [errors.Is] matches the result exactly when it matched
    [p] or matches one of the non-nil arguments. *)
Theorem Extends_adds_matches (h : heap) (a : addr) (p : Proxy)
    (errs : list error) (target : error) :
  wf h -> h !! a = Some (proxy p) ->
  forallb (valid_inb (length h)) errs = true ->
  let nonNilErrs := List.filter (fun err => negb (is_nil err)) errs in
  nonNilErrs <> [] -> target <> enil ->
  exists (r : addr) (h' : heap),
    Extends (Some a) errs h = Some (Some r, h') /\
    Error h' (Some r) = Error h (Some a) /\
    Unwrap h' (Some r) = Unwrap h (Some a) /\
    Cause h' (Some r) = Cause h (Some a) /\
    (exists b : bool,
       Is h' (Some r) target = Some b /\
       (b = true <->
        Is h (Some a) target = Some true \/
        Exists (fun e => errors_Is h e target = Some true) nonNilErrs)) /\
    (target <> ref r -> target <> ref a ->
     exists b : bool,
       errors_Is h' (ref r) target = Some b /\
       (b = true <->
        errors_Is h (ref a) target = Some true \/
        Exists (fun e => errors_Is h e target = Some true) nonNilErrs)).
Proof.
  intros Hwf Ha Hv l Hne Ht%is_nil_false.
  pose proof (lookup_lt h a _ Ha) as Hlt.
  pose proof (filter_valid _ _ Hv) as Hl. fold l in Hl.
  set (p' := {| base := base p; cause := cause p; extends := extends p ++ l |}).
  assert (Hnew : (h ++ [proxy p']) !! length h = Some (proxy p'))
    by apply lookup_alloc_new.
  assert (Hrank : forall x, x ∈ refs (proxy p) -> rank x <= length h).
  { intros x Hx. pose proof (wf_lookup h a _ x Hwf Ha Hx). lia. }
  destruct (range_any_total (fun e => errors_Is h e target) (extends p))
    as [b1 Hb1].
  { intros x Hx. apply errors_Is_total; [done|].
    apply (wf_lookup_valid h a (proxy p)); [done..|]. by do 2 right. }
  assert (HIs : Is h (Some a) target = Some b1).
  { unfold Is, Is_with. by rewrite Ht, (deref_lookup _ _ _ Ha). }
  destruct (range_any_total (fun e => errors_Is h e target) l) as [b2 Hb2].
  { intros x Hx. apply errors_Is_total; [done|]. by apply Hl. }
  pose proof (range_any_spec _ _ _ Hb2) as Hspec2.
  exists (length h), (h ++ [proxy p']). split_and!.
  - by apply Extends_eq.
  - unfold Error, Error_with.
    rewrite (deref_lookup _ _ _ Hnew), (deref_lookup _ _ _ Ha).
    cbn [mbind option_bind p' base].
    destruct (is_nil (base p)) eqn:E; [done|]. cbn [negb].
    apply Error_of_frame; [done..|]. apply Hrank. left.
  - unfold Unwrap. by rewrite (deref_lookup _ _ _ Hnew), (deref_lookup _ _ _ Ha).
  - unfold Cause. by rewrite (deref_lookup _ _ _ Hnew), (deref_lookup _ _ _ Ha).
  - exists (b1 || b2). split.
    + unfold p'.
      rewrite (Is_Extends h a p l target Hwf Ha)
        by (intros x Hx; by apply valid_inb_rank, Hl).
      rewrite HIs, Ht.
      cbn [mbind option_bind]. destruct b1; [done|]. by rewrite Hb2.
    + rewrite orb_true_iff, Hspec2. split; (intros [H|H]; [left|right]);
        congruence.
  - intros Hnr Hna.
    destruct (errors_Is_total h (ref a) target Hwf
                ltac:(by apply Nat.ltb_lt)) as [b0 Hb0].
    pose proof Hb0 as Hold.
    rewrite (errors_Is_proxy h a p target Hwf Ha Ht) in Hold.
    rewrite error_eqb_neq, HIs in Hold by congruence.
    cbn [mbind option_bind] in Hold.
    exists (b2 || b0). split.
    + unfold p'. rewrite (errors_Is_Extends h a p l target Hwf Ha Hl Ht Hnr).
      rewrite HIs, Hb2. cbn [mbind option_bind].
      destruct b1; [injection Hold as <-; by rewrite orb_true_r|].
      destruct b2; [done|]. done.
    + rewrite orb_true_iff, Hspec2, Hb0. split; (intros [H|H]; [right|left]);
        congruence.
Qed.

Lemma Extends_adds_matches_witness :
  wf sample /\
  exists (r : addr) (h' : heap),
    Extends (Some 3) [ref 0; enil] sample = Some (Some r, h') /\
    Error h' (Some r) = Error sample (Some 3) /\
    Unwrap h' (Some r) = Unwrap sample (Some 3) /\
    Cause h' (Some r) = Cause sample (Some 3) /\
    (exists b : bool,
       Is h' (Some r) (ref 0) = Some b /\
       (b = true <->
        Is sample (Some 3) (ref 0) = Some true \/
        Exists (fun e => errors_Is sample e (ref 0) = Some true) [ref 0])) /\
    (ref 0 <> ref r -> ref 0 <> ref 3 ->
     exists b : bool,
       errors_Is h' (ref r) (ref 0) = Some b /\
       (b = true <->
        errors_Is sample (ref 3) (ref 0) = Some true \/
        Exists (fun e => errors_Is sample e (ref 0) = Some true) [ref 0])).
Proof.
  split; [reflexivity|].
  apply (Extends_adds_matches sample 3
           {| base := ref 2; cause := enil; extends := [] |}
           [ref 0; enil] (ref 0));
    first [reflexivity | discriminate].
Defined.

(** X7: unlike [WithCause], [Extends] does not keep the identity of its
    receiver.  For a proxy [p] of a well-formed heap and arguments that
    were all made before [p], with a non-nil one among them, the
    result of [p.Extends(errs...)] does not match [p]: both its [Is] hook
    and [errors.Is] return false for the target [p]. *)
Theorem Extends_forgets_receiver (h : heap) (a : addr) (p : Proxy)
    (errs : list error) :
  wf h -> h !! a = Some (proxy p) ->
  forallb (valid_inb a) errs = true ->
  List.filter (fun err => negb (is_nil err)) errs <> [] ->
  exists (r : addr) (h' : heap),
    Extends (Some a) errs h = Some (Some r, h') /\
    Is h' (Some r) (ref a) = Some false /\
    errors_Is h' (ref r) (ref a) = Some false.
Proof.
  intros Hwf Ha Hv Hne. pose proof (lookup_lt h a _ Ha) as Hlt.
  set (l := List.filter (fun err => negb (is_nil err)) errs) in *.
  pose proof (filter_valid _ _ Hv) as Hl. fold l in Hl.
  assert (Hlr : forall x, x ∈ l -> rank x <= a)
    by (intros x Hx; by apply valid_inb_rank, Hl).
  assert (Hl' : forall x, x ∈ l -> rank x <= length h).
  { intros x Hx. specialize (Hlr x Hx). lia. }
  assert (Hlv : forall x, x ∈ l -> valid_inb (length h) x = true).
  { intros x Hx. apply (valid_inb_mono a); [lia|]. by apply Hl. }
  assert (Hrank : forall x, x ∈ refs (proxy p) -> rank x <= a)
    by (intros x; apply (wf_lookup h a _ x Hwf Ha)).
  assert (Hvalid : forall x, x ∈ refs (proxy p) -> valid_inb (length h) x = true)
    by (intros x; apply (wf_lookup_valid h a _ x Hwf Ha)).
  assert (HIs : Is h (Some a) (ref a) = Some false).
  { unfold Is, Is_with. rewrite (deref_lookup _ _ _ Ha). simpl.
    apply range_any_false, Forall_forall. intros x Hx.
    apply errors_Is_below; [done| |].
    - apply Hrank. by do 2 right.
    - apply Hvalid. by do 2 right. }
  assert (Hnew : range_any (fun e => errors_Is h e (ref a)) l = Some false).
  { apply range_any_false, Forall_forall. intros x Hx.
    apply errors_Is_below; [done|by apply Hlr|by apply Hlv]. }
  exists (length h),
    (h ++ [proxy {| base := base p; cause := cause p; extends := extends p ++ l |}]).
  split_and!.
  - by apply Extends_eq.
  - rewrite (Is_Extends h a p l (ref a) Hwf Ha Hl'), HIs.
    cbn [mbind option_bind is_nil]. exact Hnew.
  - rewrite (errors_Is_Extends h a p l (ref a) Hwf Ha Hlv eq_refl)
      by (intros [= ?]; lia).
    rewrite HIs, Hnew. cbn [mbind option_bind].
    destruct (is_nil (base p)) eqn:E; [done|].
    apply errors_Is_below; [done| |].
    + apply Hrank. left.
    + apply Hvalid. left.
Qed.

Lemma Extends_forgets_receiver_witness :
  wf sample /\
  exists (r : addr) (h' : heap),
    Extends (Some 3) [ref 0; ref 1] sample = Some (Some r, h') /\
    Is h' (Some r) (ref 3) = Some false /\
    errors_Is h' (ref r) (ref 3) = Some false.
Proof.
  split; [reflexivity|].
  apply (Extends_forgets_receiver sample 3
           {| base := ref 2; cause := enil; extends := [] |} [ref 0; ref 1]);
    first [reflexivity | discriminate].
Defined.

(** X8: calls of [Extends] compose.  For a proxy [p], extending by [errs1]
    and then by [errs2] gives a proxy with the same base, cause and extends
    list as extending once by [errs1] followed by [errs2]; when both lists
    hold nil only, both ways return [p] itself. *)
Theorem Extends_compose (h : heap) (a : addr) (p : Proxy)
    (errs1 errs2 : list error) :
  h !! a = Some (proxy p) ->
  exists (e2 : ProxyPtr) (h2 : heap) (e' : ProxyPtr) (h' : heap) (q : Proxy),
    (x ← Extends (Some a) errs1; Extends x errs2) h = Some (e2, h2) /\
    Extends (Some a) (errs1 ++ errs2) h = Some (e', h') /\
    deref h2 e2 = Some q /\ deref h' e' = Some q /\
    base q = base p /\ cause q = cause p /\
    extends q = extends p
                ++ List.filter (fun err => negb (is_nil err)) (errs1 ++ errs2) /\
    (List.filter (fun err => negb (is_nil err)) (errs1 ++ errs2) = [] ->
     e2 = Some a /\ e' = Some a /\ h2 = h /\ h' = h).
Proof.
  intros Ha. rewrite List.filter_app.
  assert (Hsingle : Extends (Some a) (errs1 ++ errs2) h
            = match List.filter (fun err => negb (is_nil err)) errs1
                    ++ List.filter (fun err => negb (is_nil err)) errs2 with
              | [] => Some (Some a, h)
              | l => Some (Some (length h),
                           h ++ [proxy {| base := base p; cause := cause p;
                                          extends := extends p ++ l |}])
              end).
  { rewrite <- List.filter_app.
    destruct (List.filter _ (errs1 ++ errs2)) as [|x l] eqn:E.
    - by apply Extends_noop.
    - rewrite (Extends_eq h a p (errs1 ++ errs2) Ha) by (by rewrite E).
      by rewrite E. }
  rewrite Hsingle. clear Hsingle. unfold mbind at 1, M_bind at 1.
  destruct (List.filter (fun err => negb (is_nil err)) errs1)
    as [|x1 l1] eqn:E1;
    destruct (List.filter (fun err => negb (is_nil err)) errs2)
      as [|x2 l2] eqn:E2.
  - rewrite (Extends_noop h (Some a) errs1 E1), (Extends_noop h (Some a) errs2 E2).
    exists (Some a), h, (Some a), h, p.
    rewrite (deref_lookup _ _ _ Ha). simpl. by rewrite app_nil_r.
  - rewrite (Extends_noop h (Some a) errs1 E1).
    rewrite (Extends_eq h a p errs2 Ha) by (by rewrite E2). rewrite E2.
    set (q := {| base := base p; cause := cause p;
                 extends := extends p ++ x2 :: l2 |}).
    exists (Some (length h)), (h ++ [proxy q]), (Some (length h)),
      (h ++ [proxy q]), q.
    rewrite (deref_lookup _ _ _ (lookup_alloc_new h (proxy q))).
    simpl. split_and!; try done.
  - rewrite (Extends_eq h a p errs1 Ha) by (by rewrite E1). rewrite E1.
    set (q := {| base := base p; cause := cause p;
                 extends := extends p ++ x1 :: l1 |}).
    rewrite (Extends_noop (h ++ [proxy q]) (Some (length h)) errs2 E2).
    exists (Some (length h)), (h ++ [proxy q]), (Some (length h)),
      (h ++ [proxy q]), q.
    rewrite app_nil_r. fold q.
    rewrite (deref_lookup _ _ _ (lookup_alloc_new h (proxy q))).
    simpl. split_and!; try done.
  - rewrite (Extends_eq h a p errs1 Ha) by (by rewrite E1). rewrite E1.
    set (p1 := {| base := base p; cause := cause p;
                  extends := extends p ++ x1 :: l1 |}).
    rewrite (Extends_eq (h ++ [proxy p1]) (length h) p1 errs2
               (lookup_alloc_new h (proxy p1))) by (by rewrite E2).
    rewrite E2. cbn [p1 base cause extends].
    assert ((extends p ++ x1 :: l1) ++ x2 :: l2
            = extends p ++ (x1 :: l1) ++ x2 :: l2) as ->
      by (by rewrite <- app_assoc).
    set (q := {| base := base p; cause := cause p;
                 extends := extends p ++ (x1 :: l1) ++ x2 :: l2 |}).
    exists (Some (length (h ++ [proxy p1]))), ((h ++ [proxy p1]) ++ [proxy q]),
      (Some (length h)), (h ++ [proxy q]), q.
    rewrite (deref_lookup _ _ _ (lookup_alloc_new (h ++ [proxy p1]) (proxy q))).
    rewrite (deref_lookup _ _ _ (lookup_alloc_new h (proxy q))).
    simpl. split_and!; try done.
Qed.

Lemma Extends_compose_witness :
  sample !! 3 = Some (proxy {| base := ref 2; cause := enil; extends := [] |}) /\
  exists (e2 : ProxyPtr) (h2 : heap) (e' : ProxyPtr) (h' : heap) (q : Proxy),
    (x ← Extends (Some 3) [ref 0; enil]; Extends x [ref 1]) sample
    = Some (e2, h2) /\
    Extends (Some 3) ([ref 0; enil] ++ [ref 1]) sample = Some (e', h') /\
    deref h2 e2 = Some q /\ deref h' e' = Some q /\
    base q = ref 2 /\ cause q = enil /\
    extends q = [] ++ List.filter (fun err => negb (is_nil err))
                        ([ref 0; enil] ++ [ref 1]) /\
    (List.filter (fun err => negb (is_nil err)) ([ref 0; enil] ++ [ref 1]) = [] ->
     e2 = Some 3 /\ e' = Some 3 /\ h2 = sample /\ h' = sample).
Proof.
  split; [reflexivity|].
  apply (Extends_compose sample 3
           {| base := ref 2; cause := enil; extends := [] |}
           [ref 0; enil] [ref 1]).
  reflexivity.
Defined.

(** ** Chains of causes *)

(** X9: a second cause replaces the first.  For a proxy [p] of a
    well-formed heap and non-nil causes [c1], [c2] of the heap,
    [p.WithCause(c1).WithCause(c2)] has the cause [c2] and the base of [p];
    the intermediate proxy keeps the cause [c1] and [p] keeps its own; the
    extends list of the result is the intermediate proxy, then [p], then
    the prior entries of [p], so its [Is] hook returns true both for [p]
    and for [p.WithCause(c1)]. *)
Theorem WithCause_twice (h : heap) (a : addr) (p : Proxy) (c1 c2 : error) :
  wf h -> h !! a = Some (proxy p) ->
  c1 <> enil -> c2 <> enil ->
  valid_inb (length h) c1 = true -> valid_inb (length h) c2 = true ->
  exists (a1 : addr) (h1 : heap) (a2 : addr) (h2 : heap) (q : Proxy),
    WithCause (Some a) c1 h = Some (Some a1, h1) /\
    WithCause (Some a1) c2 h1 = Some (Some a2, h2) /\
    deref h2 (Some a2) = Some q /\
    base q = base p /\
    extends q = ref a1 :: ref a :: extends p /\
    Cause h2 (Some a2) = Some c2 /\
    Cause h2 (Some a1) = Some c1 /\
    Cause h2 (Some a) = Some (cause p) /\
    Is h2 (Some a2) (ref a) = Some true /\
    Is h2 (Some a2) (ref a1) = Some true.
Proof.
  intros Hwf Ha Hc1 Hc2 Hv1 Hv2. pose proof (lookup_lt h a _ Ha) as Hlt.
  set (p1 := {| base := base p; cause := c1; extends := ref a :: extends p |}).
  set (h1 := h ++ [proxy p1]).
  set (q := {| base := base p1; cause := c2;
               extends := ref (length h) :: extends p1 |}).
  set (h2 := h1 ++ [proxy q]).
  assert (H1 : h1 !! length h = Some (proxy p1)) by apply lookup_alloc_new.
  assert (Hcall1 : WithCause (Some a) c1 h = Some (Some (length h), h1))
    by (by apply WithCause_eq).
  assert (Hcall2 : WithCause (Some (length h)) c2 h1 = Some (Some (length h1), h2))
    by (by apply WithCause_eq).
  assert (H2 : h2 !! length h1 = Some (proxy q)) by apply lookup_alloc_new.
  assert (Hwf1 : wf h1)
    by exact (wf_WithCause h h1 (Some a) (Some (length h)) c1 Hwf Hv1 Hcall1).
  assert (Hwf2 : wf h2).
  { apply (wf_WithCause h1 h2 (Some (length h)) (Some (length h1)) c2);
      [done| |done].
    apply (valid_inb_mono (length h)); [|done]. unfold h1. rewrite length_app. lia. }
  exists (length h), h1, (length h1), h2, q. split_and!; try done.
  - by apply deref_lookup.
  - unfold Cause. by rewrite (deref_lookup _ _ _ H2).
  - unfold Cause. by rewrite (deref_lookup h2 (length h) p1)
      by (by apply lookup_alloc_old).
  - unfold Cause. by rewrite (deref_lookup h2 a p)
      by (by do 2 apply lookup_alloc_old).
  - apply (Is_entry h2 (length h1) q); [done..| | |]; try done.
    cbn [q p1 extends]. right. left.
  - apply (Is_entry h2 (length h1) q); [done..| | |]; try done.
    cbn [q extends]. left.
Qed.

Lemma WithCause_twice_witness :
  wf sample /\ ref 5 <> enil /\ ref 0 <> enil /\
  exists (a1 : addr) (h1 : heap) (a2 : addr) (h2 : heap) (q : Proxy),
    WithCause (Some 3) (ref 5) sample = Some (Some a1, h1) /\
    WithCause (Some a1) (ref 0) h1 = Some (Some a2, h2) /\
    deref h2 (Some a2) = Some q /\
    base q = ref 2 /\
    extends q = ref a1 :: ref 3 :: [] /\
    Cause h2 (Some a2) = Some (ref 0) /\
    Cause h2 (Some a1) = Some (ref 5) /\
    Cause h2 (Some 3) = Some enil /\
    Is h2 (Some a2) (ref 3) = Some true /\
    Is h2 (Some a2) (ref a1) = Some true.
Proof.
  split; [reflexivity|]. split; [discriminate|]. split; [discriminate|].
  apply (WithCause_twice sample 3
           {| base := ref 2; cause := enil; extends := [] |} (ref 5) (ref 0));
    first [reflexivity | discriminate].
Defined.

(** ** The nil proxy *)

(** X10: the nil [*Proxy] that [Wrap(nil)] returns is safe only on the
    no-op paths.  On it, [Error], [Unwrap], [Cause] and [As] fault (a nil
    pointer dereference), and so do [Is] with a non-nil target, [WithCause]
    with a non-nil cause and [Extends] with a non-nil argument; only
    [Is(nil)] returns, with false.  In particular [Wrap(nil).Error()]
    faults. *)
Theorem nil_receiver_faults (h : heap) (target c : error) (errs : list error)
    (t : holder) :
  Error h None = None /\
  Unwrap h None = None /\
  Cause h None = None /\
  As h None t = None /\
  Is h None enil = Some false /\
  (target <> enil -> Is h None target = None) /\
  (c <> enil -> WithCause None c h = None) /\
  (List.filter (fun err => negb (is_nil err)) errs <> [] ->
   Extends None errs h = None) /\
  (e ← Wrap enil; read (fun h' => Error h' e)) h = None.
Proof.
  split_and!; try done.
  - intros Ht%is_nil_false. unfold Is, Is_with. by rewrite Ht.
  - intros Hc%is_nil_false. unfold WithCause. by rewrite Hc.
  - intros Hne. unfold Extends. rewrite nonNilErrs_filter. simpl.
    by destruct (List.filter _ errs).
Qed.

Lemma nil_receiver_faults_witness :
  ref 0 <> enil /\ Is sample None (ref 0) = None /\
  WithCause None (ref 0) sample = None /\
  Extends None [enil; ref 0] sample = None.
Proof.
  split; [discriminate|].
  pose proof (nil_receiver_faults sample (ref 0) (ref 0) [enil; ref 0]
                (mkHolder (Concrete KcustomError) enil))
    as (_ & _ & _ & _ & _ & HIs & HWith & HExt & _).
  split_and!; [apply HIs | apply HWith | apply HExt]; discriminate.
Defined.

(** ** Printing a proxy with a cause *)

(** X11: for a proxy [p] of a well-formed heap with message [msg] and a
    non-nil cause [c] of the heap with message [cmsg],
    [fmt.Sprintf("%+v", p.WithCause(c))] is [msg], then [ (cause: ], then
    [cmsg] and [)], whatever cause [p] had before, while [%v] and [%s] of
    the same value print [msg] alone and [%q] prints the quoted [msg]. *)
Theorem Sprintf_WithCause (Quote : string -> string) (h : heap) (a : addr)
    (p : Proxy) (c : error) :
  wf h -> h !! a = Some (proxy p) ->
  c <> enil -> valid_inb (length h) c = true ->
  exists (r : addr) (h' : heap) (msg cmsg : string),
    WithCause (Some a) c h = Some (Some r, h') /\
    Error h (Some a) = Some msg /\
    Error_of h c = Some cmsg /\
    Sprintf Quote h' [rune_plus] rune_v (Some r)
    = Some (msg +:+ " (cause: " +:+ cmsg +:+ ")") /\
    Sprintf Quote h' [] rune_v (Some r) = Some msg /\
    Sprintf Quote h' [] rune_s (Some r) = Some msg /\
    Sprintf Quote h' [] rune_q (Some r) = Some (Quote msg).
Proof.
  intros Hwf Ha Hc Hv. pose proof (lookup_lt h a _ Ha) as Hlt.
  pose proof (proj1 (is_nil_false c) Hc) as Hn.
  pose proof (valid_inb_rank _ _ Hv) as Hrank.
  set (p' := {| base := base p; cause := c; extends := ref a :: extends p |}).
  set (h' := h ++ [proxy p']).
  assert (Hnew : h' !! length h = Some (proxy p')) by apply lookup_alloc_new.
  assert (Hwf' : wf h').
  { apply (wf_WithCause h h' (Some a) (Some (length h)) c); [done..|].
    by apply WithCause_eq. }
  assert (Hlen : length h' = S (length h))
    by (unfold h'; rewrite length_app; simpl; lia).
  destruct (Error_proxy_total h a p Hwf Ha) as [msg Hmsg].
  destruct (Error_total h (fuel h) c Hwf Hn (valid_inb_live _ _ Hv))
    as [cmsg Hcmsg]; [unfold fuel; lia|done|].
  assert (Hmsg' : Error h' (Some (length h)) = Some msg).
  { rewrite <- Hmsg. unfold Error, Error_with.
    rewrite (deref_lookup _ _ _ Hnew), (deref_lookup _ _ _ Ha).
    cbn [mbind option_bind p' base].
    destruct (is_nil (base p)) eqn:E; [done|]. cbn [negb].
    apply Error_of_frame; [done..|].
    pose proof (wf_lookup h a _ (base p) Hwf Ha ltac:(left)). lia. }
  assert (Hcause : verb_s_with
                     (fun b => Format_ Quote (length h') h' (Some b)) h' c
                   = Some cmsg).
  { rewrite Hlen, (verb_s_Error Quote h' (length h) c Hwf' Hn)
      by (apply (valid_inb_mono (length h)); [lia|done]).
    unfold h'. rewrite Error_of_frame by done. exact Hcmsg. }
  assert (Hfmt : forall s verb,
            Format Quote h' (Some (length h)) s verb
            = Format_with Quote
                (verb_s_with (fun b => Format_ Quote (length h') h' (Some b)) h')
                h' (Some (length h)) s verb) by done.
  exists (length h), h', msg, cmsg. split_and!; try done.
  - by apply WithCause_eq.
  - unfold Sprintf. rewrite Hfmt. unfold Format_with.
    rewrite Hmsg', (deref_lookup _ _ _ Hnew).
    cbn [mbind option_bind p' cause Z.eqb rune_v Pos.eqb Flag flagSet existsb
         rune_plus orb].
    rewrite Hn, Hcause. done.
  - unfold Sprintf. rewrite Hfmt. unfold Format_with. by rewrite Hmsg'.
  - unfold Sprintf. rewrite Hfmt. unfold Format_with. by rewrite Hmsg'.
  - unfold Sprintf. rewrite Hfmt. unfold Format_with. by rewrite Hmsg'.
Qed.

Lemma Sprintf_WithCause_witness :
  wf sample /\ ref 5 <> enil /\
  exists (r : addr) (h' : heap) (msg cmsg : string),
    WithCause (Some 4) (ref 5) sample = Some (Some r, h') /\
    Error sample (Some 4) = Some msg /\
    Error_of sample (ref 5) = Some cmsg /\
    Sprintf (fun x => x) h' [rune_plus] rune_v (Some r)
    = Some (msg +:+ " (cause: " +:+ cmsg +:+ ")") /\
    Sprintf (fun x => x) h' [] rune_v (Some r) = Some msg /\
    Sprintf (fun x => x) h' [] rune_s (Some r) = Some msg /\
    Sprintf (fun x => x) h' [] rune_q (Some r) = Some msg.
Proof.
  split; [reflexivity|]. split; [discriminate|].
  apply (Sprintf_WithCause (fun x => x) sample 4
           {| base := ref 2; cause := enil; extends := [ref 0; ref 1] |} (ref 5));
    first [reflexivity | discriminate].
Defined.

(** ** Formatted proxies *)

(** X12: on any heap, [Newf(format, args...)] returns a proxy without cause
    whose [Error()] is the text that [fmt] makes of the format and its
    operands, whether the format has no [%w], one or several; and when the
    format has exactly one [%w], with a non-nil operand of comparable
    dynamic type, [errors.Is] matches the proxy against that operand: the
    walk goes through the proxy into the wrapping error. *)
Theorem Newf_message_and_wrap (any : Type)
    (doPrintf : heap -> string -> list any -> string * list error)
    (h : heap) (format : string) (args : list any) :
  exists (a : addr) (h' : heap),
    Newf any doPrintf format args h = Some (Some a, h') /\
    Error h' (Some a) = Some (fst (doPrintf h format args)) /\
    Cause h' (Some a) = Some enil /\
    (forall w, snd (doPrintf h format args) = [w] ->
       w <> enil -> comparable w = true ->
       errors_Is h' (ref a) w = Some true).
Proof.
  set (n := length h).
  set (p0 := {| base := ref n; cause := enil; extends := [] |}).
  assert (Hgen : forall o s,
            (forall k, Error_ (S k) ((h ++ [o]) ++ [proxy p0]) (ref n) = Some s) ->
            Error ((h ++ [o]) ++ [proxy p0]) (Some (S n)) = Some s /\
            Cause ((h ++ [o]) ++ [proxy p0]) (Some (S n)) = Some enil).
  { intros o s Ho.
    assert (Hl1 : ((h ++ [o]) ++ [proxy p0]) !! S n = Some (proxy p0)).
    { replace (S n) with (length (h ++ [o])) by (rewrite length_app; simpl; lia).
      apply lookup_alloc_new. }
    split.
    - unfold Error, Error_with. rewrite (deref_lookup _ _ _ Hl1).
      cbn [mbind option_bind p0 base is_nil negb]. apply Ho.
    - unfold Cause. by rewrite (deref_lookup _ _ _ Hl1). }
  assert (Hlen : forall o, length (h ++ [o]) = S n)
    by (intros o; rewrite length_app; simpl; lia).
  unfold Newf, fmt_Errorf, errors_New.
  unfold mbind, M_bind, alloc, mret, M_ret.
  destruct (doPrintf h format args) as [s [|w [|w' ws]]] eqn:Ep; cbn [fst snd].
  - exists (S n), ((h ++ [errorString s]) ++ [proxy p0]).
    destruct (Hgen (errorString s) s) as [HE HC].
    { intros k. cbn [Error_].
      by rewrite (lookup_alloc_old _ _ _ _ (lookup_alloc_new h (errorString s))). }
    split_and!; try done. by rewrite Hlen.
  - exists (S n), ((h ++ [wrapError s w]) ++ [proxy p0]).
    set (h' := (h ++ [wrapError s w]) ++ [proxy p0]).
    assert (Hl0 : h' !! n = Some (wrapError s w))
      by apply lookup_alloc_old, lookup_alloc_new.
    assert (Hl1 : h' !! S n = Some (proxy p0)).
    { replace (S n) with (length (h ++ [wrapError s w]))
        by (rewrite length_app; simpl; lia).
      apply lookup_alloc_new. }
    destruct (Hgen (wrapError s w) s) as [HE HC].
    { intros k. cbn [Error_]. fold h'. by rewrite Hl0. }
    split_and!; try done.
    + by rewrite Hlen.
    + intros w0 [= <-] Hw%is_nil_false Hcmp.
      unfold errors_Is, errors_Is_with, fuel. cbn [is_nil orb]. rewrite Hw, Hcmp.
      replace (length h') with (S (S n))
        by (unfold h'; rewrite !length_app; simpl; lia).
      rewrite (is_S_proxy _ _ _ _ _ _ Hl1).
      destruct (true && error_eqb (ref (S n)) w); [done|].
      unfold Is_with at 1. rewrite Hw, (deref_lookup _ _ _ Hl1).
      cbn [mbind option_bind p0 extends range_any base is_nil].
      cbn [is_]. destruct (true && error_eqb (ref n) w); [done|].
      rewrite Hl0. cbn [mbind option_bind]. rewrite Hw.
      pose proof (errors_Is_with_refl n h' w Hw Hcmp) as H.
      unfold errors_Is_with in H. by rewrite Hw, Hcmp in H.
  - set (o := wrapErrors s
                (List.filter (fun err => negb (is_nil err)) (w :: w' :: ws))).
    exists (S n), ((h ++ [o]) ++ [proxy p0]).
    destruct (Hgen o s) as [HE HC].
    { intros k. cbn [Error_].
      by rewrite (lookup_alloc_old _ _ _ _ (lookup_alloc_new h o)). }
    split_and!; try done. by rewrite Hlen.
Qed.

Lemma Newf_message_and_wrap_witness :
  ref 0 <> enil /\
  exists (a : addr) (h' : heap),
    Newf unit (fun _ format _ => (format, [ref 0])) "lookup: %w" [tt] sample
    = Some (Some a, h') /\
    Error h' (Some a) = Some "lookup: %w"%string /\
    errors_Is h' (ref a) (ref 0) = Some true.
Proof.
  split; [discriminate|].
  destruct (Newf_message_and_wrap unit (fun _ format _ => (format, [ref 0]))
              sample "lookup: %w" [tt]) as (a & h' & Hcall & Hmsg & _ & Hw).
  exists a, h'. split; [exact Hcall|]. split; [exact Hmsg|].
  apply Hw; [reflexivity | discriminate | reflexivity].
Defined.

(** ** A nil proxy passed as an error *)

Lemma range_any_false_inv (f : error -> option bool) (l : list error) :
  range_any f l = Some false -> Forall (fun x => f x = Some false) l.
Proof.
  induction l as [|x l IH]; simpl; [by constructor|].
  destruct (f x) as [[]|] eqn:E; simpl; try done.
  intros H. constructor; [done|by apply IH].
Qed.

(** The walk at a nil [*Proxy]: equal targets match by [==], any other
    non-nil target makes the hook dereference the nil receiver. *)
Lemma errors_Is_with_nilProxy (n : nat) (h : heap) (target : error) :
  target <> enil -> target <> nilProxy ->
  errors_Is_with (is_ (S n) h) nilProxy target = None.
Proof.
  intros Ht Hn. unfold errors_Is_with. cbn [is_nil orb].
  rewrite (proj1 (is_nil_false target) Ht). cbn [is_].
  rewrite Is_with_nil, (proj1 (is_nil_false target) Ht).
  by destruct target.
Qed.

(** X13: a nil [*Proxy] passed as an error is stored, and the proxy that
    holds it faults.  [Wrap(nil)] converted to [error] is not the nil
    interface, so [p.Extends(Wrap(nil))] does not return [p]: it returns a
    new proxy whose extends list is that of [p] followed by the nil
    pointer.  For every non-nil target other than that nil pointer which
    the hook of [p] does not match, the [Is] hook of the new proxy faults
    (it calls [Is] on the nil receiver, which dereferences it), and so does
    [errors.Is] on the new proxy. *)
Theorem Extends_nil_pointer_faults (h : heap) (a : addr) (p : Proxy)
    (target : error) :
  wf h -> h !! a = Some (proxy p) ->
  target <> enil -> target <> nilProxy ->
  Is h (Some a) target = Some false ->
  exists (r : addr) (h' : heap) (q : Proxy),
    (e ← Wrap enil; Extends (Some a) [iface e]) h = Some (Some r, h') /\
    r <> a /\
    deref h' (Some r) = Some q /\
    extends q = extends p ++ [nilProxy] /\
    Is h' (Some r) target = None /\
    (target <> ref r -> errors_Is h' (ref r) target = None).
Proof.
  intros Hwf Ha Ht Hn HIs. pose proof (lookup_lt h a _ Ha) as Hlt.
  pose proof (proj1 (is_nil_false target) Ht) as Hnil.
  set (q := {| base := base p; cause := cause p;
               extends := extends p ++ [nilProxy] |}).
  set (h' := h ++ [proxy q]).
  assert (Hnew : h' !! length h = Some (proxy q)) by apply lookup_alloc_new.
  assert (Hold : Forall (fun x => errors_Is h x target = Some false) (extends p)).
  { apply range_any_false_inv. revert HIs. unfold Is, Is_with.
    by rewrite Hnil, (deref_lookup _ _ _ Ha). }
  assert (Hrank : forall x, x ∈ extends p -> rank x <= length h).
  { intros x Hx. pose proof (wf_lookup h a _ x Hwf Ha ltac:(by do 2 right)). lia. }
  assert (Hhook : forall n, length h <= n ->
            Is_with (errors_Is_with (is_ (S n) h')) h' (Some (length h)) target
            = None).
  { intros n Hle. unfold Is_with. rewrite Hnil, (deref_lookup _ _ _ Hnew).
    cbn [mbind option_bind q extends]. rewrite range_any_app.
    rewrite (range_any_false _ (extends p)).
    - cbn [mbind option_bind range_any].
      by rewrite errors_Is_with_nilProxy.
    - apply Forall_forall. intros x Hx.
      rewrite Forall_forall in Hold. rewrite <- (Hold x Hx).
      rewrite <- (is_fuel_stable h (S n) x target Hwf)
        by (specialize (Hrank x Hx); lia).
      unfold errors_Is_with. destruct (is_nil x || is_nil target); [done|].
      symmetry. apply (is_agree h h' (length h)); [done| |by apply Hrank].
      intros b Hb. by apply agree_app. }
  exists (length h), h', q. split_and!.
  - unfold mbind at 1, M_bind at 1. cbn [Wrap is_nil mret M_ret iface from_option].
    by rewrite (Extends_eq h a p [nilProxy] Ha).
  - lia.
  - by apply deref_lookup.
  - done.
  - unfold Is, errors_Is, fuel. apply Hhook. unfold h'. rewrite length_app. lia.
  - intros Hne. unfold errors_Is, errors_Is_with, fuel. cbn [is_nil orb].
    rewrite Hnil, (is_S_proxy _ _ _ _ _ _ Hnew).
    rewrite error_eqb_neq by congruence.
    replace (length h') with (S (length h))
      by (unfold h'; rewrite length_app; simpl; lia).
    by rewrite Hhook.
Qed.

Lemma Extends_nil_pointer_faults_witness :
  wf sample /\ ref 0 <> enil /\ ref 0 <> nilProxy /\
  exists (r : addr) (h' : heap) (q : Proxy),
    (e ← Wrap enil; Extends (Some 3) [iface e]) sample = Some (Some r, h') /\
    r <> 3 /\
    deref h' (Some r) = Some q /\
    extends q = [] ++ [nilProxy] /\
    Is h' (Some r) (ref 0) = None /\
    (ref 0 <> ref r -> errors_Is h' (ref r) (ref 0) = None).
Proof.
  split; [reflexivity|]. split; [discriminate|]. split; [discriminate|].
  apply (Extends_nil_pointer_faults sample 3
           {| base := ref 2; cause := enil; extends := [] |} (ref 0));
    first [reflexivity | discriminate].
Defined.
